(** * gpup: the upload pipeline of package [photos] (upload.go)

    A shallow embedding of [UploadFile], [UploadFiles] / [uploadWorker],
    [Append] and [findMediaItemByUploadToken], and the properties of the
    upload-then-commit flow proved about them.

    Conventions of the embedding:
    - a Go [string] is a [string]; a Go [int] is a [Z];
    - a Go [error] is its message; a nil-able value is an [option];
    - the operating system, the HTTP client and the remote service are
      records of functions giving their answers;
    - goroutines are threads of an interleaving small-step semantics whose
      step function is executable. *)

From Stdlib Require Import ZArith Ascii String DecimalString.
From stdpp Require Import base tactics option list strings.

Local Open Scope string_scope.
Local Open Scope list_scope.
Local Open Scope Z_scope.

(** ** Strings and formatting *)

Module Fmt.

(** [%d] of [fmt]: the decimal digits, with a leading minus sign for a
    negative number. *)
Definition d (n : Z) : string := NilZero.string_of_int (Z.to_int n).

(** [s] occurs in [msg] as a contiguous piece. *)
Definition includes (msg s : string) : Prop :=
  exists pre post : string, msg = pre +:+ s +:+ post.

End Fmt.

(** ** Package [path] of the Go standard library: [path.Base] *)

Module path.

Definition is_slash (c : ascii) : bool := Ascii.eqb c "/"%char.

(** The loop [for len(path) > 0 && path[len(path)-1] == '/'] that drops the
    trailing slashes. *)
Fixpoint stripTrailingSlashes (s : string) : string :=
  match s with
  | EmptyString => EmptyString
  | String c r =>
      match stripTrailingSlashes r with
      | EmptyString => if is_slash c then EmptyString else String c EmptyString
      | r' => String c r'
      end
  end.

(** [lastSlash]: the index of the last ['/'] of [s], or [-1]. *)
Fixpoint lastSlash (s : string) : Z :=
  match s with
  | EmptyString => -1
  | String c r =>
      let j := lastSlash r in
      if 0 <=? j then j + 1 else if is_slash c then 0 else -1
  end.

(** The slice expression [s[n:]]. *)
Fixpoint from (n : nat) (s : string) : string :=
  match n, s with
  | O, _ => s
  | S n', String _ r => from n' r
  | S _, EmptyString => EmptyString
  end.

Definition Base (p : string) : string :=
  if String.eqb p "" then "."
  else
    let p := stripTrailingSlashes p in
    let i := lastSlash p in
    let p := if 0 <=? i then from (Z.to_nat (i + 1)) p else p in
    if String.eqb p "" then "/" else p.

End path.

(** ** The data model *)

(** The types of [google.golang.org/api/photoslibrary/v1] that the package
    uses, with the fields it reads or writes.  A field or a list element
    that is a pointer in Go is an [option] here, [None] for [nil]. *)
Module photoslibrary.

Record SimpleMediaItem := { UploadToken : string }.

Record NewMediaItem := {
  Description : string;
  NewMediaItem_SimpleMediaItem : option SimpleMediaItem
}.

Record Status := { Code : Z; Message : string }.

Record NewMediaItemResult := {
  Result_Status : option Status;
  Result_UploadToken : string
}.

Record Album := { Id : string }.

Record BatchCreateMediaItemsRequest := {
  AlbumId : string;
  NewMediaItems : list (option NewMediaItem)
}.

Record BatchCreateMediaItemsResponse := {
  NewMediaItemResults : list (option NewMediaItemResult)
}.

End photoslibrary.
Export photoslibrary.

(** A Go [error], by its message. *)
Definition error := string.

(** An [*os.File] and a response body, by handle. *)
Definition File := nat.
Definition ReadCloser := nat.

Record Request := {
  Method : string;
  URL : string;
  Request_Body : File;
  Header : list (string * string)
}.

Record Response := {
  StatusCode : Z;
  Body : ReadCloser
}.

(** What lies outside the package and answers its calls: the file system,
    package [net/http], the HTTP client [p.client] and the remote service
    [p.service]. *)
Record World := {
  os_Open : string -> File + error;
  http_NewRequest_check : string -> string -> option error;
  client_Do : Request -> Response + error;
  ioutil_ReadAll : ReadCloser -> string + error;
  MediaItems_BatchCreate_Do :
    BatchCreateMediaItemsRequest -> BatchCreateMediaItemsResponse + error
}.

(** [http.NewRequest]: the request with the given method, URL and body and
    no header, unless the method or the URL is refused. *)
Definition http_NewRequest (w : World) (method url : string) (body : File)
  : Request + error :=
  match http_NewRequest_check w method url with
  | Some err => inr err
  | None => inl {| Method := method; URL := url; Request_Body := body; Header := [] |}
  end.

(** [req.Header.Add(key, value)]. *)
Definition Header_Add (req : Request) (key value : string) : Request :=
  {| Method := Method req; URL := URL req; Request_Body := Request_Body req;
     Header := Header req ++ [(key, value)] |}.

(** ** Effects of one function call *)

Inductive Event :=
| EvOpen (name : string)
| EvFileClose (f : File)
| EvDo (req : Request)
| EvReadAll (b : ReadCloser)
| EvBodyClose (b : ReadCloser)
| EvBatchCreate (req : BatchCreateMediaItemsRequest)
| EvPrintf (line : string).

(** The frame of a running function: what it has done so far and the
    calls it has deferred, the latest first. *)
Record Frame := { trace : list Event; deferred : list Event }.

Definition enter : Frame := {| trace := []; deferred := [] |}.

Definition emit (ev : Event) (fr : Frame) : Frame :=
  {| trace := trace fr ++ [ev]; deferred := deferred fr |}.

Definition defer (ev : Event) (fr : Frame) : Frame :=
  {| trace := trace fr; deferred := ev :: deferred fr |}.

(** [return v]: the deferred calls run, last deferred first, then the
    function returns [v]. *)
Definition leave {A : Type} (v : A) (fr : Frame) : list Event * A :=
  (trace fr ++ deferred fr, v).

(** ** upload.go *)

Definition uploadConcurrency : Z := 3.
Definition apiVersion : string := "v1".
Definition basePath : string := "https://photoslibrary.googleapis.com/".

(** [UploadFile] (upload.go, lines 60-96).  The result is the Go pair
    of a pointer to a [NewMediaItem] and an [error], [None] for [nil]. *)
Definition UploadFile (p : World) (filepath : string)
  : list Event * (option NewMediaItem * option error) :=
  let fr := emit (EvOpen filepath) enter in
  match os_Open p filepath with
  | inr err =>
      leave (None, Some ("Could not open file " +:+ filepath +:+ ": " +:+ err)) fr
  | inl r =>
      let fr := defer (EvFileClose r) fr in
      let filename := path.Base filepath in
      match http_NewRequest p "POST" (basePath +:+ apiVersion +:+ "/uploads") r with
      | inr err =>
          leave (None, Some ("Could not create a request for uploading file "
                             +:+ filepath +:+ ": " +:+ err)) fr
      | inl req =>
          let req := Header_Add req "X-Goog-Upload-File-Name" filename in
          let fr := emit (EvPrintf ("Uploading " +:+ filepath)) fr in
          let fr := emit (EvDo req) fr in
          match client_Do p req with
          | inr err =>
              leave (None, Some ("Could not send a request for uploading file "
                                 +:+ filepath +:+ ": " +:+ err)) fr
          | inl res =>
              let fr := defer (EvBodyClose (Body res)) fr in
              let fr := emit (EvReadAll (Body res)) fr in
              match ioutil_ReadAll p (Body res) with
              | inr err =>
                  leave (None,
                         Some ("Could not read the response body while uploading file "
                               +:+ filepath +:+ ": status=" +:+ Fmt.d (StatusCode res)
                               +:+ ", " +:+ err)) fr
              | inl b =>
                  let body := b in
                  if negb (StatusCode res =? 200) then
                    leave (None,
                           Some ("Could not upload file " +:+ filepath
                                 +:+ ": status=" +:+ Fmt.d (StatusCode res)
                                 +:+ ", body=" +:+ body)) fr
                  else
                    leave (Some {| Description := filename;
                                   NewMediaItem_SimpleMediaItem :=
                                     Some {| UploadToken := body |} |},
                           None) fr
              end
          end
      end
  end.

(** How a function that dereferences pointers ends: it returns, or it is
    stopped by the run-time panic of a nil dereference. *)
Inductive outcome (A : Type) :=
| Returned (a : A)
| Panicked.
Arguments Returned {A} a.
Arguments Panicked {A}.

(** [findMediaItemByUploadToken] (lines 124-131).  The items are pointers;
    [mediaItem.SimpleMediaItem.UploadToken] dereferences the item and its
    [SimpleMediaItem]. *)
Fixpoint findMediaItemByUploadToken (mediaItems : list (option NewMediaItem))
    (uploadToken : string) : outcome (option NewMediaItem) :=
  match mediaItems with
  | [] => Returned None
  | mediaItem :: rest =>
      match mediaItem with
      | None => Panicked
      | Some item =>
          match NewMediaItem_SimpleMediaItem item with
          | None => Panicked
          | Some simple =>
              if String.eqb (UploadToken simple) uploadToken
              then Returned mediaItem
              else findMediaItemByUploadToken rest uploadToken
          end
      end
  end.

(** The body of the loop over [batch.NewMediaItemResults] (lines 113-119):
    the lines it prints for one result.  [result.Status.Code] dereferences
    the result and its [Status]. *)
Definition reconcile (mediaItems : list (option NewMediaItem))
    (result : option NewMediaItemResult) : outcome (list Event) :=
  match result with
  | None => Panicked
  | Some result =>
      match Result_Status result with
      | None => Panicked
      | Some status =>
          if negb (Code status =? 0) then
            match findMediaItemByUploadToken mediaItems (Result_UploadToken result) with
            | Panicked => Panicked
            | Returned (Some mediaItem) =>
                Returned
                  [EvPrintf ("Skipped " +:+ Description mediaItem +:+ ": "
                             +:+ Message status
                             +:+ " (" +:+ Fmt.d (Code status) +:+ ")")]
            | Returned None =>
                Returned
                  [EvPrintf ("Error while adding files: "
                             +:+ Message status
                             +:+ " (" +:+ Fmt.d (Code status) +:+ ")")]
            end
          else Returned []
      end
  end.

(** The loop of lines 112-120: the results in order, until one panics. *)
Fixpoint reconcile_all (mediaItems : list (option NewMediaItem))
    (results : list (option NewMediaItemResult)) : list Event * outcome unit :=
  match results with
  | [] => ([], Returned tt)
  | result :: rest =>
      match reconcile mediaItems result with
      | Panicked => ([], Panicked)
      | Returned evs =>
          let '(evs', end_) := reconcile_all mediaItems rest in
          (evs ++ evs', end_)
      end
  end.

(** The request that [Append] builds (lines 102-107); [req.AlbumId] keeps
    its zero value when [album] is nil. *)
Definition Append_request (album : option Album)
    (mediaItems : list (option NewMediaItem)) : BatchCreateMediaItemsRequest :=
  let req := {| AlbumId := ""; NewMediaItems := mediaItems |} in
  match album with
  | Some a => {| AlbumId := Id a; NewMediaItems := NewMediaItems req |}
  | None => req
  end.

(** [Append] (lines 101-122): what it prints, and the error it returns
    unless it panics. *)
Definition Append (p : World) (album : option Album)
    (mediaItems : list (option NewMediaItem))
  : list Event * outcome (option error) :=
  let req := Append_request album mediaItems in
  match MediaItems_BatchCreate_Do p req with
  | inr err => ([EvBatchCreate req], Returned (Some err))
  | inl batch =>
      let '(evs, end_) := reconcile_all mediaItems (NewMediaItemResults batch) in
      (EvBatchCreate req :: evs,
       match end_ with
       | Returned _ => Returned None
       | Panicked => Panicked
       end)
  end.

(** ** The goroutines of [UploadFiles] *)

(** A Go slice, as far as the package looks at it: nil or not, and its
    elements in order.  The capacity is left out: [append] below never
    depends on it. *)
Inductive slice (A : Type) :=
| nil_slice
| mk_slice (elems : list A).
Arguments nil_slice {A}.
Arguments mk_slice {A} elems.

Definition elems {A : Type} (s : slice A) : list A :=
  match s with
  | nil_slice => []
  | mk_slice l => l
  end.

(** [make([]T, 0, n)]: empty and not nil, for every [n]. *)
Definition make_slice {A : Type} (n : nat) : slice A := mk_slice [].

Definition append {A : Type} (s : slice A) (x : A) : slice A :=
  mk_slice (elems s ++ [x]).

(** A [*photoslibrary.NewMediaItem]: nil, or the address of an item of the
    heap. *)
Definition pointer := option nat.

(** Where a worker stands in [uploadWorker] (lines 47-57). *)
Inductive Worker :=
| WRange                       (* at [for filepath := range uploadQueue] *)
| WUploading (filepath : string) (* inside [p.UploadFile(filepath)] *)
| WReturned (filepath : string) (mediaItem : pointer) (err : option error)
                               (* at [if err != nil] *)
| WExited                      (* loop left, [workerGroup.Done()] run *)
| WPanicked.                   (* stopped by a run-time panic *)

(** The goroutine of lines 35-38. *)
Inductive Closer :=
| CNotStarted
| CWaiting                     (* in [workerGroup.Wait()] *)
| CClosed.                     (* [close(aggregateQueue)] done *)

(** Where the caller stands in [UploadFiles] (lines 31-44). *)
Inductive Main :=
| MSpawn (i : Z)               (* at [i < uploadConcurrency] *)
| MCollect (mediaItems : slice pointer)
                               (* at [for mediaItem := range aggregateQueue] *)
| MReturned (mediaItems : slice pointer).

(** One finished call of [UploadFile]: its argument, the world that
    answered it and the pointer it returned. *)
Record Call := {
  call_filepath : string;
  call_world : World;
  call_mediaItem : pointer
}.

Record State := {
  uploadQueue : list string;       (* the closed channel: paths still queued *)
  aggregateQueue : list pointer;   (* the buffer of the result channel *)
  aggregateQueue_cap : nat;
  aggregateQueue_closed : bool;
  workerGroup : Z;                 (* the counter of the WaitGroup *)
  workers : list Worker;
  closer : Closer;
  main : Main;
  heap : list NewMediaItem;
  log : list string;
  calls : list Call                (* history of the finished calls *)
}.

Definition set_uploadQueue (q : list string) (s : State) : State :=
  {| uploadQueue := q; aggregateQueue := aggregateQueue s;
     aggregateQueue_cap := aggregateQueue_cap s;
     aggregateQueue_closed := aggregateQueue_closed s;
     workerGroup := workerGroup s; workers := workers s; closer := closer s;
     main := main s; heap := heap s; log := log s; calls := calls s |}.

Definition set_aggregateQueue (q : list pointer) (s : State) : State :=
  {| uploadQueue := uploadQueue s; aggregateQueue := q;
     aggregateQueue_cap := aggregateQueue_cap s;
     aggregateQueue_closed := aggregateQueue_closed s;
     workerGroup := workerGroup s; workers := workers s; closer := closer s;
     main := main s; heap := heap s; log := log s; calls := calls s |}.

Definition close_aggregateQueue (s : State) : State :=
  {| uploadQueue := uploadQueue s; aggregateQueue := aggregateQueue s;
     aggregateQueue_cap := aggregateQueue_cap s;
     aggregateQueue_closed := true;
     workerGroup := workerGroup s; workers := workers s; closer := closer s;
     main := main s; heap := heap s; log := log s; calls := calls s |}.

Definition set_workerGroup (n : Z) (s : State) : State :=
  {| uploadQueue := uploadQueue s; aggregateQueue := aggregateQueue s;
     aggregateQueue_cap := aggregateQueue_cap s;
     aggregateQueue_closed := aggregateQueue_closed s;
     workerGroup := n; workers := workers s; closer := closer s;
     main := main s; heap := heap s; log := log s; calls := calls s |}.

Definition set_workers (ws : list Worker) (s : State) : State :=
  {| uploadQueue := uploadQueue s; aggregateQueue := aggregateQueue s;
     aggregateQueue_cap := aggregateQueue_cap s;
     aggregateQueue_closed := aggregateQueue_closed s;
     workerGroup := workerGroup s; workers := ws; closer := closer s;
     main := main s; heap := heap s; log := log s; calls := calls s |}.

Definition set_closer (c : Closer) (s : State) : State :=
  {| uploadQueue := uploadQueue s; aggregateQueue := aggregateQueue s;
     aggregateQueue_cap := aggregateQueue_cap s;
     aggregateQueue_closed := aggregateQueue_closed s;
     workerGroup := workerGroup s; workers := workers s; closer := c;
     main := main s; heap := heap s; log := log s; calls := calls s |}.

Definition set_main (m : Main) (s : State) : State :=
  {| uploadQueue := uploadQueue s; aggregateQueue := aggregateQueue s;
     aggregateQueue_cap := aggregateQueue_cap s;
     aggregateQueue_closed := aggregateQueue_closed s;
     workerGroup := workerGroup s; workers := workers s; closer := closer s;
     main := m; heap := heap s; log := log s; calls := calls s |}.

Definition Printf (lines : list string) (s : State) : State :=
  {| uploadQueue := uploadQueue s; aggregateQueue := aggregateQueue s;
     aggregateQueue_cap := aggregateQueue_cap s;
     aggregateQueue_closed := aggregateQueue_closed s;
     workerGroup := workerGroup s; workers := workers s; closer := closer s;
     main := main s; heap := heap s; log := log s ++ lines; calls := calls s |}.

(** The call [UploadFile(filepath)] answered by [w] has returned [ptr],
    after allocating [new] if it built an item. *)
Definition finish_call (filepath : string) (w : World) (ptr : pointer)
    (new : list NewMediaItem) (s : State) : State :=
  {| uploadQueue := uploadQueue s; aggregateQueue := aggregateQueue s;
     aggregateQueue_cap := aggregateQueue_cap s;
     aggregateQueue_closed := aggregateQueue_closed s;
     workerGroup := workerGroup s; workers := workers s; closer := closer s;
     main := main s; heap := heap s ++ new; log := log s;
     calls := calls s ++ [{| call_filepath := filepath; call_world := w;
                             call_mediaItem := ptr |}] |}.

Definition set_worker (i : nat) (w : Worker) (s : State) : State :=
  set_workers (<[i:=w]> (workers s)) s.

(** The lines a call printed. *)
Definition printed (evs : list Event) : list string :=
  omap (fun ev => match ev with EvPrintf line => Some line | _ => None end) evs.

(** The state when the first goroutine is about to be started (lines
    22-30): every path is in the closed [uploadQueue], whose capacity
    [len(filepaths)] lets every send through. *)
Definition start (filepaths : list string) : State :=
  {| uploadQueue := filepaths;
     aggregateQueue := [];
     aggregateQueue_cap := length filepaths;
     aggregateQueue_closed := false;
     workerGroup := 0;
     workers := [];
     closer := CNotStarted;
     main := MSpawn 0;
     heap := [];
     log := ["Queued " +:+ Fmt.d (Z.of_nat (length filepaths)) +:+ " file(s)"];
     calls := [] |}.

(** One step of the caller. *)
Definition UploadFiles_step (s : State) : option State :=
  match main s with
  | MSpawn i =>
      if i <? uploadConcurrency then
        Some (set_main (MSpawn (i + 1))
                (set_workers (workers s ++ [WRange])
                   (set_workerGroup (workerGroup s + 1) s)))
      else
        Some (set_main (MCollect (make_slice (aggregateQueue_cap s)))
                (set_closer CWaiting s))
  | MCollect mediaItems =>
      match aggregateQueue s with
      | mediaItem :: rest =>
          Some (set_main (MCollect (append mediaItems mediaItem))
                  (set_aggregateQueue rest s))
      | [] =>
          if aggregateQueue_closed s then Some (set_main (MReturned mediaItems) s)
          else None
      end
  | MReturned _ => None
  end.

(** One step of worker [i]; [w] answers if the step is the return of
    [UploadFile], and what the call printed is appended to the log then.
    A send on [aggregateQueue] waits while the buffer is full and panics
    if the channel is closed; [workerGroup.Done()] panics if the counter
    would become negative. *)
Definition uploadWorker_step (i : nat) (w : World) (s : State) : option State :=
  match workers s !! i with
  | None => None
  | Some WRange =>
      match uploadQueue s with
      | filepath :: rest =>
          Some (set_worker i (WUploading filepath) (set_uploadQueue rest s))
      | [] =>
          if 0 <? workerGroup s then
            Some (set_worker i WExited (set_workerGroup (workerGroup s - 1) s))
          else Some (set_worker i WPanicked s)
      end
  | Some (WUploading filepath) =>
      let '(evs, (item, err)) := UploadFile w filepath in
      let ptr := match item with
                 | Some _ => Some (length (heap s))
                 | None => None
                 end in
      Some (set_worker i (WReturned filepath ptr err)
              (finish_call filepath w ptr (option_list item)
                 (Printf (printed evs) s)))
  | Some (WReturned filepath mediaItem err) =>
      match err with
      | Some e =>
          Some (set_worker i WRange
                  (Printf ["Error while uploading file " +:+ filepath +:+ ": " +:+ e] s))
      | None =>
          if aggregateQueue_closed s then Some (set_worker i WPanicked s)
          else if (length (aggregateQueue s) <? aggregateQueue_cap s)%nat then
            Some (set_worker i WRange
                    (set_aggregateQueue (aggregateQueue s ++ [mediaItem]) s))
          else None
      end
  | Some WExited => None
  | Some WPanicked => None
  end.

(** The step of the closing goroutine: [Wait] returns once the counter is
    zero, then the channel is closed. *)
Definition closer_step (s : State) : option State :=
  match closer s with
  | CWaiting =>
      if workerGroup s =? 0 then Some (close_aggregateQueue (set_closer CClosed s))
      else None
  | _ => None
  end.

(** The scheduler's choices. *)
Inductive Action :=
| RunMain
| RunWorker (i : nat) (w : World)
| RunCloser.

Definition step (a : Action) (s : State) : option State :=
  match a with
  | RunMain => UploadFiles_step s
  | RunWorker i w => uploadWorker_step i w s
  | RunCloser => closer_step s
  end.

Fixpoint run (acts : list Action) (s : State) : option State :=
  match acts with
  | [] => Some s
  | a :: rest =>
      match step a s with
      | Some s' => run rest s'
      | None => None
      end
  end.

(** The calls of [UploadFile] in flight. *)
Definition uploading (w : Worker) : list string :=
  match w with
  | WUploading filepath => [filepath]
  | _ => []
  end.

Definition in_flight (s : State) : list string := flat_map uploading (workers s).

(** What [UploadFiles] has returned, if it has. *)
Definition returned (s : State) : option (slice pointer) :=
  match main s with
  | MReturned mediaItems => Some mediaItems
  | _ => None
  end.

(** The two halves of the result of a finished call. *)
Definition call_item (c : Call) : option NewMediaItem :=
  fst (snd (UploadFile (call_world c) (call_filepath c))).

Definition call_err (c : Call) : option error :=
  snd (snd (UploadFile (call_world c) (call_filepath c))).

Definition call_ok (c : Call) : bool :=
  match call_err c with
  | None => true
  | Some _ => false
  end.

(** ** Notions used to state the properties *)

(** The upload token of an item, if the item carries a
    [SimpleMediaItem]. *)
Definition token (mediaItem : NewMediaItem) : option string :=
  UploadToken <$> NewMediaItem_SimpleMediaItem mediaItem.

(** The same behind a pointer: nothing for [nil]. *)
Definition token_at (mediaItem : option NewMediaItem) : option string :=
  mediaItem ≫= token.

(** The status of a result behind a pointer, if both are there. *)
Definition status_at (result : option NewMediaItemResult) : option Status :=
  result ≫= Result_Status.

(** The inputs on which [Append] dereferences no nil pointer: items that
    are there and carry a [SimpleMediaItem], as [UploadFile] builds them,
    and results that are there and carry a [Status]. *)
Definition items_present (mediaItems : list (option NewMediaItem)) : Prop :=
  Forall (fun m => is_Some (token_at m)) mediaItems.

Definition statuses_present (results : list (option NewMediaItemResult)) : Prop :=
  Forall (fun r => is_Some (status_at r)) results.

(** The request of the upload, as the remote service documents it: a POST
    to [{base}/v1/uploads] carrying the file and its base name. *)
Definition upload_request (r : File) (filepath : string) : Request :=
  {| Method := "POST";
     URL := "https://photoslibrary.googleapis.com/v1/uploads";
     Request_Body := r;
     Header := [("X-Goog-Upload-File-Name", path.Base filepath)] |}.

(** The five ways an upload fails. *)
Inductive Failure :=
| OpenFailed
| RequestFailed
| TransportFailed
| ReadFailed
| Rejected.

(** [UploadFailure p filepath k msg]: in world [p] the upload of [filepath]
    fails in the way [k], to be reported as [msg]. *)
Inductive UploadFailure (p : World) (filepath : string) : Failure -> error -> Prop :=
| failure_open err :
    os_Open p filepath = inr err ->
    UploadFailure p filepath OpenFailed
      ("Could not open file " +:+ filepath +:+ ": " +:+ err)
| failure_request r err :
    os_Open p filepath = inl r ->
    http_NewRequest_check p "POST" (URL (upload_request r filepath)) = Some err ->
    UploadFailure p filepath RequestFailed
      ("Could not create a request for uploading file " +:+ filepath +:+ ": " +:+ err)
| failure_transport r err :
    os_Open p filepath = inl r ->
    http_NewRequest_check p "POST" (URL (upload_request r filepath)) = None ->
    client_Do p (upload_request r filepath) = inr err ->
    UploadFailure p filepath TransportFailed
      ("Could not send a request for uploading file " +:+ filepath +:+ ": " +:+ err)
| failure_read r res err :
    os_Open p filepath = inl r ->
    http_NewRequest_check p "POST" (URL (upload_request r filepath)) = None ->
    client_Do p (upload_request r filepath) = inl res ->
    ioutil_ReadAll p (Body res) = inr err ->
    UploadFailure p filepath ReadFailed
      ("Could not read the response body while uploading file " +:+ filepath
       +:+ ": status=" +:+ Fmt.d (StatusCode res) +:+ ", " +:+ err)
| failure_rejected r res body :
    os_Open p filepath = inl r ->
    http_NewRequest_check p "POST" (URL (upload_request r filepath)) = None ->
    client_Do p (upload_request r filepath) = inl res ->
    ioutil_ReadAll p (Body res) = inl body ->
    StatusCode res <> 200 ->
    UploadFailure p filepath Rejected
      ("Could not upload file " +:+ filepath +:+ ": status="
       +:+ Fmt.d (StatusCode res) +:+ ", body=" +:+ body).

(** The upload of [filepath] goes through in world [p] and the service
    answers 200 with [body]. *)
Definition UploadAccepted (p : World) (filepath : string) (body : string) : Prop :=
  exists r res,
    os_Open p filepath = inl r /\
    http_NewRequest_check p "POST" (URL (upload_request r filepath)) = None /\
    client_Do p (upload_request r filepath) = inl res /\
    ioutil_ReadAll p (Body res) = inl body /\
    StatusCode res = 200.

(** [c] occurs in [s]. *)
Fixpoint occurs (c : ascii) (s : string) : bool :=
  match s with
  | EmptyString => false
  | String c' r => Ascii.eqb c' c || occurs c r
  end.

(** A path made of a directory part, which is empty or ends with the
    separator [sep], and a file name free of [sep]. *)
Definition splits_at (sep : ascii) (filepath dir name : string) : Prop :=
  filepath = dir +:+ name /\
  (dir = "" \/ exists d, dir = d +:+ String sep "") /\
  name <> "" /\
  occurs sep name = false.

(** The backslash is the separator of paths on Windows, the slash
    everywhere else. *)
Definition platform_separator (sep : ascii) : Prop :=
  sep = "/"%char \/ sep = "\"%char.

(** The description of every uploaded item is the file name of its path,
    for paths written with the separator [sep]. *)
Definition description_is_file_name (sep : ascii) : Prop :=
  forall (p : World) (filepath dir name : string) (item : NewMediaItem),
    splits_at sep filepath dir name ->
    fst (snd (UploadFile p filepath)) = Some item ->
    Description item = name.

(** An item that the lookup of [uploadToken] passes by: it is there, it
    carries a [SimpleMediaItem], and its token is another one. *)
Definition passes (uploadToken : string) (mediaItem : option NewMediaItem) : Prop :=
  exists t, token_at mediaItem = Some t /\ t <> uploadToken.

(** The lookup of [uploadToken] meets a nil dereference: an item that is
    nil or has no [SimpleMediaItem], behind items that it passes by. *)
Definition stumbles (mediaItems : list (option NewMediaItem))
    (uploadToken : string) : Prop :=
  exists before mediaItem after,
    mediaItems = before ++ mediaItem :: after /\
    token_at mediaItem = None /\
    Forall (passes uploadToken) before.

(** The result at which the loop of [Append] panics: a result that is nil
    or has no status, or a refused result whose lookup stumbles. *)
Inductive aborts (mediaItems : list (option NewMediaItem))
  : option NewMediaItemResult -> Prop :=
| aborts_no_status result :
    status_at result = None ->
    aborts mediaItems result
| aborts_lookup result status :
    Result_Status result = Some status ->
    Code status <> 0 ->
    stumbles mediaItems (Result_UploadToken result) ->
    aborts mediaItems (Some result).

(** What the reconciliation prints for one result of the batch: nothing
    for the status code 0; for another code, the line that names the first
    submitted item carrying the token of the result, or the line without a
    name when no submitted item carries it.  Of a result without a status
    nothing is said. *)
Inductive reconciled (mediaItems : list (option NewMediaItem))
  : option NewMediaItemResult -> list string -> Prop :=
| reconciled_accepted result status :
    Result_Status result = Some status ->
    Code status = 0 ->
    reconciled mediaItems (Some result) []
| reconciled_skipped result status before mediaItem after :
    Result_Status result = Some status ->
    Code status <> 0 ->
    mediaItems = before ++ Some mediaItem :: after ->
    token mediaItem = Some (Result_UploadToken result) ->
    Forall (fun m => token_at m <> Some (Result_UploadToken result)) before ->
    reconciled mediaItems (Some result)
      ["Skipped " +:+ Description mediaItem +:+ ": " +:+ Message status
       +:+ " (" +:+ Fmt.d (Code status) +:+ ")"]
| reconciled_unknown result status :
    Result_Status result = Some status ->
    Code status <> 0 ->
    Forall (fun m => token_at m <> Some (Result_UploadToken result)) mediaItems ->
    reconciled mediaItems (Some result)
      ["Error while adding files: " +:+ Message status
       +:+ " (" +:+ Fmt.d (Code status) +:+ ")"]
| reconciled_no_status result lines :
    status_at result = None ->
    reconciled mediaItems result lines.



(** The closings among the events of a call. *)
Definition is_close (ev : Event) : bool :=
  match ev with
  | EvFileClose _ | EvBodyClose _ => true
  | _ => false
  end.

(** ** A sample world

    Files whose name starts with [missing] cannot be opened; the service
    refuses files whose base name starts with [bad] with status 500 and
    answers every other upload with a token made from the file name. *)
Module Sample.

(** The handle of a file: the sum of the character codes of its name. *)
Fixpoint file_of (name : string) : File :=
  match name with
  | EmptyString => 0%nat
  | String c r => (nat_of_ascii c + file_of r)%nat
  end.

Definition starts_with (pre s : string) : bool := String.prefix pre s.

Definition name_of (req : Request) : string :=
  match Header req with
  | (_, v) :: _ => v
  | [] => ""
  end.

Definition world : World :=
  {| os_Open := fun name =>
       if starts_with "missing" name then inr "no such file or directory"
       else inl (file_of name);
     http_NewRequest_check := fun _ _ => None;
     client_Do := fun req =>
       inl {| StatusCode := if starts_with "bad" (name_of req) then 500 else 200;
              Body := Request_Body req |};
     ioutil_ReadAll := fun b => inl ("token-" +:+ Fmt.d (Z.of_nat b));
     MediaItems_BatchCreate_Do := fun req =>
       inl {| NewMediaItemResults :=
                map (fun m =>
                       Some {| Result_Status :=
                                 Some (if String.eqb (from_option Description "" m)
                                                     "dup.jpg"
                                       then {| Code := 6; Message := "ALREADY_EXISTS" |}
                                       else {| Code := 0; Message := "OK" |});
                               Result_UploadToken := default "" (token_at m) |})
                    (NewMediaItems req) |} |}.

(** The same world with a service that answers every batch with
    [results]. *)
Definition answering (results : list (option NewMediaItemResult)) : World :=
  {| os_Open := os_Open world;
     http_NewRequest_check := http_NewRequest_check world;
     client_Do := client_Do world;
     ioutil_ReadAll := ioutil_ReadAll world;
     MediaItems_BatchCreate_Do := fun _ => inl {| NewMediaItemResults := results |} |}.

Definition item (description uploadToken : string) : option NewMediaItem :=
  Some {| Description := description;
          NewMediaItem_SimpleMediaItem := Some {| UploadToken := uploadToken |} |}.


Definition result (code : Z) (message uploadToken : string)
  : option NewMediaItemResult :=
  Some {| Result_Status := Some {| Code := code; Message := message |};
          Result_UploadToken := uploadToken |}.

Definition result_without_status (uploadToken : string)
  : option NewMediaItemResult :=
  Some {| Result_Status := None; Result_UploadToken := uploadToken |}.

(** A world without network. *)
Definition offline : World :=
  {| os_Open := fun name => inl (file_of name);
     http_NewRequest_check := fun _ _ => None;
     client_Do := fun _ => inr "dial tcp: no route to host";
     ioutil_ReadAll := fun _ => inr "unexpected EOF";
     MediaItems_BatchCreate_Do := fun _ => inr "dial tcp: no route to host" |}.

End Sample.

(** ** The steps as a relation *)

Inductive Step (s : State) : State -> Prop :=
| step_spawn i :
    main s = MSpawn i -> i < uploadConcurrency ->
    Step s (set_main (MSpawn (i + 1))
              (set_workers (workers s ++ [WRange])
                 (set_workerGroup (workerGroup s + 1) s)))
| step_supervise i :
    main s = MSpawn i -> uploadConcurrency <= i ->
    Step s (set_main (MCollect (make_slice (aggregateQueue_cap s)))
              (set_closer CWaiting s))
| step_collect mediaItems mediaItem rest :
    main s = MCollect mediaItems -> aggregateQueue s = mediaItem :: rest ->
    Step s (set_main (MCollect (append mediaItems mediaItem))
              (set_aggregateQueue rest s))
| step_return mediaItems :
    main s = MCollect mediaItems -> aggregateQueue s = [] ->
    aggregateQueue_closed s = true ->
    Step s (set_main (MReturned mediaItems) s)
| step_receive i filepath rest :
    workers s !! i = Some WRange -> uploadQueue s = filepath :: rest ->
    Step s (set_worker i (WUploading filepath) (set_uploadQueue rest s))
| step_exit i :
    workers s !! i = Some WRange -> uploadQueue s = [] ->
    0 < workerGroup s ->
    Step s (set_worker i WExited (set_workerGroup (workerGroup s - 1) s))
| step_done_panics i :
    workers s !! i = Some WRange -> uploadQueue s = [] ->
    workerGroup s <= 0 ->
    Step s (set_worker i WPanicked s)
| step_upload i filepath w :
    workers s !! i = Some (WUploading filepath) ->
    Step s (set_worker i
              (WReturned filepath
                 (match fst (snd (UploadFile w filepath)) with
                  | Some _ => Some (length (heap s))
                  | None => None
                  end)
                 (snd (snd (UploadFile w filepath))))
              (finish_call filepath w
                 (match fst (snd (UploadFile w filepath)) with
                  | Some _ => Some (length (heap s))
                  | None => None
                  end)
                 (option_list (fst (snd (UploadFile w filepath))))
                 (Printf (printed (fst (UploadFile w filepath))) s)))
| step_report i filepath mediaItem e :
    workers s !! i = Some (WReturned filepath mediaItem (Some e)) ->
    Step s (set_worker i WRange
              (Printf ["Error while uploading file " +:+ filepath +:+ ": " +:+ e] s))
| step_send_panics i filepath mediaItem :
    workers s !! i = Some (WReturned filepath mediaItem None) ->
    aggregateQueue_closed s = true ->
    Step s (set_worker i WPanicked s)
| step_send i filepath mediaItem :
    workers s !! i = Some (WReturned filepath mediaItem None) ->
    aggregateQueue_closed s = false ->
    (length (aggregateQueue s) < aggregateQueue_cap s)%nat ->
    Step s (set_worker i WRange
              (set_aggregateQueue (aggregateQueue s ++ [mediaItem]) s))
| step_close :
    closer s = CWaiting -> workerGroup s = 0 ->
    Step s (close_aggregateQueue (set_closer CClosed s)).

(** ** What stays true while the goroutines run *)

(** The item a worker is about to send. *)
Definition outgoing (w : Worker) : list pointer :=
  match w with
  | WReturned _ mediaItem None => [mediaItem]
  | _ => []
  end.

(** The items the caller has taken off the channel. *)
Definition collected (m : Main) : list pointer :=
  match m with
  | MSpawn _ => []
  | MCollect mediaItems | MReturned mediaItems => elems mediaItems
  end.

Definition alive (w : Worker) : bool :=
  match w with
  | WExited => false
  | _ => true
  end.

Definition is_closed (c : Closer) : bool :=
  match c with
  | CClosed => true
  | _ => false
  end.

(** The goroutines and the channels agree. *)
Record Structure (filepaths : list string) (s : State) : Prop := {
  st_cap : aggregateQueue_cap s = length filepaths;
  st_group : workerGroup s = Z.of_nat (length (List.filter alive (workers s)));
  st_exited : WExited ∈ workers s -> uploadQueue s = [];
  st_safe : WPanicked ∉ workers s;
  st_closed : aggregateQueue_closed s = is_closed (closer s);
  st_closer : closer s = CClosed -> workerGroup s = 0;
  st_main :
    match main s with
    | MSpawn i =>
        0 <= i <= uploadConcurrency /\
        Z.of_nat (length (workers s)) = i /\
        closer s = CNotStarted
    | MCollect mediaItems =>
        Z.of_nat (length (workers s)) = uploadConcurrency /\
        closer s <> CNotStarted /\
        mediaItems <> nil_slice
    | MReturned mediaItems =>
        Z.of_nat (length (workers s)) = uploadConcurrency /\
        closer s = CClosed /\
        aggregateQueue s = [] /\
        mediaItems <> nil_slice
    end
}.

(** Every path is either still queued, or being uploaded, or the argument
    of a finished call. *)
Definition Paths (filepaths : list string) (s : State) : Prop :=
  filepaths ≡ₚ map call_filepath (calls s) ++ in_flight s ++ uploadQueue s.

(** The pointers of the calls that succeeded are the addresses of the heap
    in the order of allocation, each holding the item its call built, and
    each is with a worker about to send it, in the channel, or collected. *)
Record Items (s : State) : Prop := {
  it_alloc :
    map call_mediaItem (List.filter call_ok (calls s))
    = map Some (seq 0 (length (heap s)));
  it_heap :
    map call_item (List.filter call_ok (calls s)) = map Some (heap s);
  it_where :
    map call_mediaItem (List.filter call_ok (calls s))
    ≡ₚ flat_map outgoing (workers s) ++ aggregateQueue s ++ collected (main s)
}.

(** The invariant of the runs from the start. *)
Definition Invariant (filepaths : list string) (s : State) : Prop :=
  Structure filepaths s /\ Paths filepaths s /\ Items s.

(** ** The steps left *)

Definition worker_weight (w : Worker) : nat :=
  match w with
  | WRange => 1
  | WUploading _ => 4
  | WReturned _ _ _ => 3
  | WExited | WPanicked => 0
  end.

Definition main_weight (m : Main) : nat :=
  match m with
  | MSpawn i => 2 * Z.to_nat (uploadConcurrency - i) + 3
  | MCollect _ => 1
  | MReturned _ => 0
  end.

Definition closer_weight (c : Closer) : nat :=
  match c with
  | CWaiting => 1
  | _ => 0
  end.

(** A bound on the number of steps that any schedule can still take. *)
Definition steps_left (s : State) : nat :=
  4 * length (uploadQueue s) + length (aggregateQueue s)
  + sum_list_with worker_weight (workers s)
  + main_weight (main s) + closer_weight (closer s).

(** ** Sample runs *)

Module SampleRun.

Definition paths : list string := ["ok1.jpg"; "bad.jpg"; "ok2.jpg"].

Definition worker (i : nat) : Action := RunWorker i Sample.world.

(** The three workers are started, each takes a path, the three calls
    return, the results are sent or reported, the workers leave, the
    channel is closed and the caller collects. *)
Definition uploads_started : list Action :=
  [RunMain; RunMain; RunMain; RunMain; worker 0; worker 1; worker 2].

Definition schedule : list Action :=
  uploads_started ++
  [worker 2; worker 0; worker 1; worker 2; worker 1; worker 0;
   worker 1; worker 0; worker 2; RunCloser; RunMain; RunMain; RunMain].

(** The state once the three uploads have started. *)
Definition started : State :=
  {| uploadQueue := [];
     aggregateQueue := [];
     aggregateQueue_cap := 3;
     aggregateQueue_closed := false;
     workerGroup := 3;
     workers := [WUploading "ok1.jpg"; WUploading "bad.jpg"; WUploading "ok2.jpg"];
     closer := CWaiting;
     main := MCollect (mk_slice []);
     heap := [];
     log := ["Queued 3 file(s)"];
     calls := [] |}.

(** The state at the return. *)
Definition final : State :=
  {| uploadQueue := [];
     aggregateQueue := [];
     aggregateQueue_cap := 3;
     aggregateQueue_closed := true;
     workerGroup := 0;
     workers := [WExited; WExited; WExited];
     closer := CClosed;
     main := MReturned (mk_slice [Some 0%nat; Some 1%nat]);
     heap :=
       [{| Description := "ok2.jpg";
           NewMediaItem_SimpleMediaItem := Some {| UploadToken := "token-635" |} |};
        {| Description := "ok1.jpg";
           NewMediaItem_SimpleMediaItem := Some {| UploadToken := "token-634" |} |}];
     log :=
       ["Queued 3 file(s)"; "Uploading ok2.jpg"; "Uploading ok1.jpg";
        "Uploading bad.jpg";
        "Error while uploading file bad.jpg: "
        +:+ "Could not upload file bad.jpg: status=500, body=token-662"];
     calls :=
       [{| call_filepath := "ok2.jpg"; call_world := Sample.world;
           call_mediaItem := Some 0%nat |};
        {| call_filepath := "ok1.jpg"; call_world := Sample.world;
           call_mediaItem := Some 1%nat |};
        {| call_filepath := "bad.jpg"; call_world := Sample.world;
           call_mediaItem := None |}] |}.

(** Two files that both fail, uploaded by the first worker alone. *)
Definition failing_paths : list string := ["missing.jpg"; "dir/bad.jpg"].

Definition failing_schedule : list Action :=
  [RunMain; RunMain; RunMain; worker 0; worker 0; worker 0; worker 0;
   worker 0; worker 0; worker 0; RunMain; worker 1; worker 2; RunCloser;
   RunMain].

Definition failed : State :=
  {| uploadQueue := [];
     aggregateQueue := [];
     aggregateQueue_cap := 2;
     aggregateQueue_closed := true;
     workerGroup := 0;
     workers := [WExited; WExited; WExited];
     closer := CClosed;
     main := MReturned (mk_slice []);
     heap := [];
     log :=
       ["Queued 2 file(s)";
        "Error while uploading file missing.jpg: "
        +:+ "Could not open file missing.jpg: no such file or directory";
        "Uploading dir/bad.jpg";
        "Error while uploading file dir/bad.jpg: "
        +:+ "Could not upload file dir/bad.jpg: status=500, body=token-1028"];
     calls :=
       [{| call_filepath := "missing.jpg"; call_world := Sample.world;
           call_mediaItem := None |};
        {| call_filepath := "dir/bad.jpg"; call_world := Sample.world;
           call_mediaItem := None |}] |}.

End SampleRun.

(** ** Notions for the further properties *)

Definition is_do (ev : Event) : bool :=
  match ev with
  | EvDo _ => true
  | _ => false
  end.

(** A result of the batch that the service refused. *)
Definition rejected (result : option NewMediaItemResult) : bool :=
  match status_at result with
  | Some status => negb (Code status =? 0)
  | None => false
  end.

(** The dereference of every pointer of a list, as [Append] does it when it
    reads the items: nothing if one of them is nil or dangling. *)
Fixpoint load (h : list NewMediaItem) (ptrs : list pointer)
  : option (list NewMediaItem) :=
  match ptrs with
  | [] => Some []
  | ptr :: rest =>
      match ptr with
      | None => None
      | Some a =>
          match h !! a, load h rest with
          | Some item, Some items => Some (item :: items)
          | _, _ => None
          end
      end
  end.

(** The line that [uploadWorker] prints for a failed call. *)
Definition report (filepath : string) (e : error) : string :=
  "Error while uploading file " +:+ filepath +:+ ": " +:+ e.

(** Everything a finished call gets printed: its own lines and, if it
    failed, the report of the worker. *)
Definition call_lines (c : Call) : list string :=
  printed (fst (UploadFile (call_world c) (call_filepath c)))
  ++ match call_err c with
     | Some e => [report (call_filepath c) e]
     | None => []
     end.

(** The report that a worker has still to print. *)
Definition pending_report (w : Worker) : list string :=
  match w with
  | WReturned filepath _ (Some e) => [report filepath e]
  | _ => []
  end.

(** The log holds the first line and the lines of the finished calls,
    except the reports still to be printed. *)
Definition Logged (filepaths : list string) (s : State) : Prop :=
  exists rest,
    log s = ("Queued " +:+ Fmt.d (Z.of_nat (length filepaths)) +:+ " file(s)") :: rest /\
    rest ++ flat_map pending_report (workers s) ≡ₚ flat_map call_lines (calls s).

(** The paths are taken from the queue in the order of the input. *)
Definition Dequeued (filepaths : list string) (s : State) : Prop :=
  exists taken,
    filepaths = taken ++ uploadQueue s /\
    taken ≡ₚ map call_filepath (calls s) ++ in_flight s.

(** [item], behind the pointer [ptr], is what the finished call [c] of
    [UploadFile] returned: [c] returned [ptr], the world that answered [c]
    accepted the upload with the body [token item], and the description is
    the base name of the path of [c]. *)
Definition built_by (c : Call) (ptr : pointer) (item : NewMediaItem) : Prop :=
  call_mediaItem c = ptr /\
  call_item c = Some item /\
  exists body,
    UploadAccepted (call_world c) (call_filepath c) body /\
    token item = Some body /\
    Description item = path.Base (call_filepath c).

(** ** A run with one file that the service has already *)

Module SampleDup.

Definition paths : list string := ["dup.jpg"].

Definition schedule : list Action :=
  [RunMain; RunMain; RunMain; RunMain;
   SampleRun.worker 0; SampleRun.worker 0; SampleRun.worker 0;
   SampleRun.worker 0; SampleRun.worker 1; SampleRun.worker 2;
   RunCloser; RunMain; RunMain].

Definition final : State :=
  {| uploadQueue := [];
     aggregateQueue := [];
     aggregateQueue_cap := 1;
     aggregateQueue_closed := true;
     workerGroup := 0;
     workers := [WExited; WExited; WExited];
     closer := CClosed;
     main := MReturned (mk_slice [Some 0%nat]);
     heap :=
       [{| Description := "dup.jpg";
           NewMediaItem_SimpleMediaItem := Some {| UploadToken := "token-696" |} |}];
     log := ["Queued 1 file(s)"; "Uploading dup.jpg"];
     calls :=
       [{| call_filepath := "dup.jpg"; call_world := Sample.world;
           call_mediaItem := Some 0%nat |}] |}.

End SampleDup.

(** [s] starts with [pre]. *)
Fixpoint has_prefix (pre s : string) : bool :=
  match pre, s with
  | EmptyString, _ => true
  | String a pre', String b s' => Ascii.eqb a b && has_prefix pre' s'
  | String _ _, EmptyString => false
  end.

(** A line of the log that reports a failed upload. *)
Definition is_report (line : string) : bool :=
  has_prefix "Error while uploading file " line.

(** ** [path.Base] and [%d] on examples *)

Example Base_nested : path.Base "/a/b/photo.jpg" = "photo.jpg".
Proof. reflexivity. Qed.

Example Base_trailing : path.Base "a/b//" = "b".
Proof. reflexivity. Qed.

Example Base_root : path.Base "///" = "/".
Proof. reflexivity. Qed.

Example Base_empty : path.Base "" = ".".
Proof. reflexivity. Qed.

Example Base_backslash : path.Base "a\b\photo.jpg" = "a\b\photo.jpg".
Proof. reflexivity. Qed.

Example d_200 : Fmt.d 200 = "200".
Proof. reflexivity. Qed.

Example d_neg : Fmt.d (-5) = "-5".
Proof. reflexivity. Qed.

Example d_zero : Fmt.d 0 = "0".
Proof. reflexivity. Qed.

(** ** Strings *)

#[local] Arguments String.append !_ _ : simpl nomatch.

Lemma append_assoc (a b c : string) : (a +:+ b) +:+ c = a +:+ (b +:+ c).
Proof. induction a as [|x a IH]; simpl; [reflexivity | now f_equal]. Qed.

Lemma includes_here (pre s post : string) : Fmt.includes (pre +:+ s +:+ post) s.
Proof. now exists pre, post. Qed.

Lemma includes_later (pre msg s : string) :
  Fmt.includes msg s -> Fmt.includes (pre +:+ msg) s.
Proof.
  intros (a & b & ->). exists (pre +:+ a), b. symmetry. apply append_assoc.
Qed.

Lemma includes_end (pre s : string) : Fmt.includes (pre +:+ s) s.
Proof.
  exists pre, "". f_equal. induction s as [|x s IH]; simpl; congruence.
Qed.

(** ** [UploadFile] *)

Lemma upload_url : basePath +:+ apiVersion +:+ "/uploads" = URL (upload_request 0%nat "").
Proof. reflexivity. Qed.

(** The request that [UploadFile] hands to the client is the documented
    one. *)
Lemma UploadFile_request (r : File) (filepath : string) :
  Header_Add
    {| Method := "POST"; URL := basePath +:+ apiVersion +:+ "/uploads";
       Request_Body := r; Header := [] |}
    "X-Goog-Upload-File-Name" (path.Base filepath)
  = upload_request r filepath.
Proof. reflexivity. Qed.

(** Every call ends in one of the five failures, with no item, or is
    accepted, with the item and no error. *)
Lemma UploadFile_outcome (p : World) (filepath : string) :
  (exists k msg,
      UploadFailure p filepath k msg /\
      snd (UploadFile p filepath) = (None, Some msg)) \/
  (exists body,
      UploadAccepted p filepath body /\
      snd (UploadFile p filepath)
      = (Some {| Description := path.Base filepath;
                 NewMediaItem_SimpleMediaItem := Some {| UploadToken := body |} |},
         None)).
Proof.
  unfold UploadFile, http_NewRequest.
  destruct (os_Open p filepath) as [r|err] eqn:Hopen.
  2: { left. eexists _, _. split; [eapply failure_open; eassumption | reflexivity]. }
  change (basePath +:+ apiVersion +:+ "/uploads")
    with (URL (upload_request r filepath)).
  destruct (http_NewRequest_check p "POST" (URL (upload_request r filepath)))
    as [err|] eqn:Hreq.
  { left. eexists _, _. split; [eapply failure_request; eassumption | reflexivity]. }
  change (Header_Add _ _ _) with (upload_request r filepath).
  destruct (client_Do p (upload_request r filepath)) as [res|err] eqn:Hdo.
  2: { left. eexists _, _. split; [eapply failure_transport; eassumption | reflexivity]. }
  destruct (ioutil_ReadAll p (Body res)) as [body|err] eqn:Hread.
  2: { left. eexists _, _. split; [eapply failure_read; eassumption | reflexivity]. }
  destruct (StatusCode res =? 200) eqn:Hcode; simpl.
  - right. exists body. split; [|reflexivity].
    exists r, res. apply Z.eqb_eq in Hcode. auto.
  - left. eexists _, _. split; [|reflexivity].
    apply Z.eqb_neq in Hcode. eapply failure_rejected; eassumption.
Qed.

(** The messages of two different failures differ, whatever the paths and
    the causes. *)
Lemma UploadFailure_kind (p p' : World) (filepath filepath' : string)
    (k k' : Failure) (msg : error) :
  UploadFailure p filepath k msg -> UploadFailure p' filepath' k' msg -> k = k'.
Proof.
  intros H H'. destruct H; inversion H'; subst; try reflexivity;
    match goal with
    | E : _ +:+ _ = _ +:+ _ |- _ => simpl in E; discriminate E
    end.
Qed.

Lemma UploadFailure_includes_path (p : World) (filepath : string)
    (k : Failure) (msg : error) :
  UploadFailure p filepath k msg -> Fmt.includes msg filepath.
Proof. intros H. destruct H; apply includes_here. Qed.

Lemma UploadFile_error_iff (p : World) (filepath : string) (msg : error) :
  snd (snd (UploadFile p filepath)) = Some msg <->
  exists k, UploadFailure p filepath k msg.
Proof.
  split.
  - intros Herr.
    destruct (UploadFile_outcome p filepath) as [(k & m & Hk & E)|(b & _ & E)];
      rewrite E in Herr; simpl in Herr; [|discriminate].
    injection Herr as <-. now exists k.
  - intros [k Hk].
    destruct (UploadFile_outcome p filepath)
      as [(k' & m & Hk' & E)|(b & (r & res & Ho & Hr & Hd & Hb & Hc) & E)];
      rewrite E; simpl.
    + f_equal.
      destruct Hk; inversion Hk'; subst; try congruence;
        repeat match goal with
               | A : ?x = inl _, B : ?x = inl _ |- _ =>
                   rewrite A in B; injection B as ?; subst
               | A : ?x = inr _, B : ?x = inr _ |- _ =>
                   rewrite A in B; injection B as ?; subst
               | A : ?x = Some _, B : ?x = Some _ |- _ =>
                   rewrite A in B; injection B as ?; subst
               end; try reflexivity; try congruence.
    + exfalso. destruct Hk;
        repeat match goal with
               | A : ?x = inl _, B : ?x = inl _ |- _ =>
                   rewrite A in B; injection B as ?; subst
               end; congruence.
Qed.


(** ** [path.Base] on paths written with slashes *)

Lemma strip_slash_free (s : string) :
  occurs "/" s = false -> path.stripTrailingSlashes s = s.
Proof.
  induction s as [|c r IH]; simpl; [reflexivity|].
  intros H. apply orb_false_iff in H as [Hc Hr].
  rewrite (IH Hr). unfold path.is_slash. rewrite Hc. now destruct r.
Qed.

Lemma strip_before_name (dir name : string) :
  name <> "" -> occurs "/" name = false ->
  path.stripTrailingSlashes (dir +:+ name) = dir +:+ name.
Proof.
  intros Hne Hfree. induction dir as [|c d IH]; simpl.
  - now apply strip_slash_free.
  - rewrite IH. destruct (d +:+ name) eqn:E; [|reflexivity].
    destruct d; simpl in E; [contradiction | discriminate].
Qed.

Lemma lastSlash_slash_free (s : string) :
  occurs "/" s = false -> path.lastSlash s = -1.
Proof.
  induction s as [|c r IH]; simpl; [reflexivity|].
  intros H. apply orb_false_iff in H as [Hc Hr].
  rewrite (IH Hr). unfold path.is_slash. now rewrite Hc.
Qed.

Lemma lastSlash_before_name (d name : string) :
  occurs "/" name = false ->
  path.lastSlash (d +:+ String "/" name) = Z.of_nat (String.length d).
Proof.
  intros Hfree. induction d as [|c d IH].
  - simpl. now rewrite (lastSlash_slash_free _ Hfree).
  - change (path.lastSlash (String c d +:+ String "/" name))
      with (let j := path.lastSlash (d +:+ String "/" name) in
            if 0 <=? j then j + 1 else if path.is_slash c then 0 else -1).
    rewrite IH. cbv zeta.
    destruct (Z.leb_spec 0 (Z.of_nat (String.length d))); [|lia].
    simpl String.length. lia.
Qed.

Lemma from_after_slash (d name : string) :
  path.from (S (String.length d)) (d +:+ String "/" name) = name.
Proof. induction d as [|c d IH]; simpl; [now destruct name | exact IH]. Qed.

Lemma Base_file_name (filepath dir name : string) :
  splits_at "/" filepath dir name -> path.Base filepath = name.
Proof.
  intros (-> & Hdir & Hne & Hfree). unfold path.Base.
  assert (Hnonempty : dir +:+ name <> "").
  { destruct dir; simpl; [assumption | discriminate]. }
  apply String.eqb_neq in Hnonempty as ->.
  rewrite (strip_before_name _ _ Hne Hfree).
  destruct Hdir as [-> | [d ->]].
  - simpl. rewrite (lastSlash_slash_free _ Hfree). simpl.
    now apply String.eqb_neq in Hne as ->.
  - rewrite append_assoc. simpl (String "/" "" +:+ name).
    rewrite (lastSlash_before_name _ _ Hfree).
    destruct (Z.leb_spec 0 (Z.of_nat (String.length d))); [|lia].
    replace (Z.to_nat (Z.of_nat (String.length d) + 1))
      with (S (String.length d)) by lia.
    rewrite from_after_slash. now apply String.eqb_neq in Hne as ->.
Qed.

(** ** Properties of [UploadFile] *)

(** The cases of a membership in a list written out. *)
Ltac elem_of_cases H :=
  repeat (apply elem_of_cons in H as [H|H]; [try discriminate H|]);
  try (apply elem_of_nil in H; contradiction).

(** C6.  [UploadFile] returns an error exactly when the upload fails in one
    of the five ways: the file cannot be opened, the request cannot be
    built, the transfer fails, the body cannot be read, or the status is
    not 200.  The error then comes without an item, its message includes
    the file path, messages of different ways never coincide, and the
    message of a refusal includes the status code and the body. *)
Theorem UploadFile_fails_in_five_ways (p : World) (filepath : string) :
  (forall msg,
      snd (snd (UploadFile p filepath)) = Some msg <->
      exists k, UploadFailure p filepath k msg) /\
  (forall msg,
      snd (snd (UploadFile p filepath)) = Some msg ->
      fst (snd (UploadFile p filepath)) = None /\ Fmt.includes msg filepath) /\
  (forall p' filepath' k k' msg,
      UploadFailure p filepath k msg -> UploadFailure p' filepath' k' msg ->
      k = k') /\
  (forall msg,
      UploadFailure p filepath Rejected msg ->
      exists r res body,
        os_Open p filepath = inl r /\
        client_Do p (upload_request r filepath) = inl res /\
        ioutil_ReadAll p (Body res) = inl body /\
        StatusCode res <> 200 /\
        Fmt.includes msg (Fmt.d (StatusCode res)) /\
        Fmt.includes msg body).
Proof.
  repeat split.
  - apply UploadFile_error_iff.
  - apply UploadFile_error_iff.
  - destruct (UploadFile_outcome p filepath) as [(k & m & _ & E)|(b & _ & E)];
      rewrite E in *; simpl in *; [reflexivity | discriminate].
  - apply UploadFile_error_iff in H as [k Hk].
    eapply UploadFailure_includes_path, Hk.
  - intros p' filepath' k k' msg. apply UploadFailure_kind.
  - intros msg H. inversion H; subst.
    exists r, res, body. repeat split; try assumption.
    + do 2 apply includes_later. apply includes_here.
    + do 4 apply includes_later. apply includes_end.
Qed.

Lemma UploadFile_fails_in_five_ways_witness :
  snd (snd (UploadFile Sample.world "dir/bad.jpg"))
  = Some "Could not upload file dir/bad.jpg: status=500, body=token-1028" /\
  exists k,
    UploadFailure Sample.world "dir/bad.jpg" k
      "Could not upload file dir/bad.jpg: status=500, body=token-1028".
Proof.
  split; [reflexivity|].
  apply (proj1 (UploadFile_fails_in_five_ways Sample.world "dir/bad.jpg")).
  reflexivity.
Defined.

(** C7, as the specification words it, fails: a path written with
    backslashes is its own description, directories included. *)
Lemma description_backslash_counterexample :
  ~ (forall sep, platform_separator sep -> description_is_file_name sep).
Proof.
  intros H.
  specialize (H "\"%char (or_intror eq_refl) Sample.world
                "a\b\photo.jpg" "a\b\" "photo.jpg"
                {| Description := "a\b\photo.jpg";
                   NewMediaItem_SimpleMediaItem :=
                     Some {| UploadToken := "token-1300" |} |}).
  assert (Hsplit : splits_at "\" "a\b\photo.jpg" "a\b\" "photo.jpg").
  { repeat split; try reflexivity; [|discriminate].
    right. now exists "a\b". }
  specialize (H Hsplit eq_refl). discriminate H.
Qed.

(** C7, amended.  The description of the item of an accepted upload is
    [path.Base] of the path: the file name of a path written with slashes,
    however deep its directory; and the upload token is the body of the
    response as it was read. *)
Theorem UploadFile_description_and_token (p : World) (filepath : string)
    (item : NewMediaItem) :
  fst (snd (UploadFile p filepath)) = Some item ->
  Description item = path.Base filepath /\
  (forall dir name, splits_at "/" filepath dir name -> Description item = name) /\
  (exists body, UploadAccepted p filepath body /\ token item = Some body).
Proof.
  intros Hitem.
  destruct (UploadFile_outcome p filepath) as [(k & m & _ & E)|(b & Hb & E)];
    rewrite E in Hitem; simpl in Hitem; [discriminate|].
  injection Hitem as <-. simpl. repeat split.
  - intros dir name Hsplit. now apply Base_file_name with dir.
  - now exists b.
Qed.

Lemma UploadFile_description_and_token_witness :
  fst (snd (UploadFile Sample.world "/a/b/photo.jpg"))
  = Some {| Description := "photo.jpg";
            NewMediaItem_SimpleMediaItem := Some {| UploadToken := "token-1257" |} |} /\
  path.Base "/a/b/photo.jpg" = "photo.jpg".
Proof.
  split; [reflexivity|].
  exact (eq_trans
           (eq_sym (proj1 (UploadFile_description_and_token Sample.world
                             "/a/b/photo.jpg" _ eq_refl)))
           eq_refl).
Defined.

(** C8.  A call that opened the file closes it as the last thing before it
    returns, and a call whose request was answered closes the body of the
    answer after the request and before it returns; a call that opened
    nothing closes nothing. *)
Theorem UploadFile_closes_handles (p : World) (filepath : string) :
  (forall r, os_Open p filepath = inl r ->
     exists pre,
       fst (UploadFile p filepath) = EvOpen filepath :: pre ++ [EvFileClose r]) /\
  (forall req res, EvDo req ∈ fst (UploadFile p filepath) ->
     client_Do p req = inl res ->
     exists pre post,
       fst (UploadFile p filepath) = pre ++ EvDo req :: post /\
       EvBodyClose (Body res) ∈ post) /\
  (forall err, os_Open p filepath = inr err ->
     List.filter is_close (fst (UploadFile p filepath)) = []).
Proof.
  unfold UploadFile, http_NewRequest.
  destruct (os_Open p filepath) as [r|err] eqn:Hopen.
  2: { repeat split; try discriminate.
       intros req res Hin. simpl in Hin. elem_of_cases Hin. }
  destruct (http_NewRequest_check p "POST" _) as [err|] eqn:Hreq.
  { repeat split; try discriminate.
    - intros r' [= <-]. now exists [].
    - intros req res Hin. simpl in Hin. elem_of_cases Hin. }
  change (Header_Add _ _ _) with (upload_request r filepath).
  destruct (client_Do p (upload_request r filepath)) as [res|err] eqn:Hdo.
  2: { repeat split; try discriminate.
       - intros r' [= <-]. now eexists [_; _].
       - intros req res Hin Hres. simpl in Hin.
         elem_of_cases Hin. injection Hin as ->. congruence. }
  assert (Hbody : forall req res',
             EvDo req ∈ [EvOpen filepath; EvPrintf ("Uploading " +:+ filepath);
                         EvDo (upload_request r filepath); EvReadAll (Body res);
                         EvBodyClose (Body res); EvFileClose r] ->
             client_Do p req = inl res' ->
             exists pre post,
               [EvOpen filepath; EvPrintf ("Uploading " +:+ filepath);
                EvDo (upload_request r filepath); EvReadAll (Body res);
                EvBodyClose (Body res); EvFileClose r]
               = pre ++ EvDo req :: post /\ EvBodyClose (Body res') ∈ post).
  { intros req res' Hin Hres.
    elem_of_cases Hin. injection Hin as ->.
    assert (res' = res) as -> by congruence.
    eexists [_; _], _. split; [reflexivity|].
    apply list_elem_of_further, list_elem_of_here. }
  destruct (ioutil_ReadAll p (Body res)) as [body|err];
    [destruct (StatusCode res =? 200)|];
    (repeat split; try discriminate;
     [intros r' [= <-]; now eexists [_; _; _; _] | exact Hbody]).
Qed.

Lemma UploadFile_closes_handles_witness :
  exists pre post,
    fst (UploadFile Sample.world "dir/bad.jpg")
    = pre ++ EvDo (upload_request 1028%nat "dir/bad.jpg") :: post /\
    EvBodyClose 1028%nat ∈ post.
Proof.
  apply (proj1 (proj2 (UploadFile_closes_handles Sample.world "dir/bad.jpg"))
           (upload_request 1028%nat "dir/bad.jpg")
           {| StatusCode := 500; Body := 1028%nat |}).
  - vm_compute. do 2 apply list_elem_of_further. apply list_elem_of_here.
  - reflexivity.
Defined.

(** C9.  [UploadFile] returns either an item and no error, or an error and
    no item. *)
Theorem UploadFile_item_xor_error (p : World) (filepath : string) :
  match snd (UploadFile p filepath) with
  | (Some _, None) | (None, Some _) => True
  | (Some _, Some _) | (None, None) => False
  end.
Proof.
  destruct (UploadFile_outcome p filepath) as [(k & m & _ & E)|(b & _ & E)];
    now rewrite E.
Qed.

Lemma UploadFile_item_xor_error_witness :
  match snd (UploadFile Sample.world "missing.jpg") with
  | (Some _, None) | (None, Some _) => True
  | (Some _, Some _) | (None, None) => False
  end.
Proof. exact (UploadFile_item_xor_error Sample.world "missing.jpg"). Defined.

(** ** [findMediaItemByUploadToken] and [Append] *)


Lemma passes_not_token (uploadToken : string) (m : option NewMediaItem) :
  passes uploadToken m -> token_at m <> Some uploadToken.
Proof. intros (t & Ht & Hne) E. congruence. Qed.

(** The three ways the lookup ends, each by what the list looks like. *)
Lemma find_outcome (mediaItems : list (option NewMediaItem)) (uploadToken : string) :
  (Forall (passes uploadToken) mediaItems /\
   findMediaItemByUploadToken mediaItems uploadToken = Returned None) \/
  (exists before mediaItem after,
      mediaItems = before ++ Some mediaItem :: after /\
      token mediaItem = Some uploadToken /\
      Forall (passes uploadToken) before /\
      findMediaItemByUploadToken mediaItems uploadToken
      = Returned (Some mediaItem)) \/
  (stumbles mediaItems uploadToken /\
   findMediaItemByUploadToken mediaItems uploadToken = Panicked).
Proof.
  induction mediaItems as [|x l IH].
  - left. split; [constructor | reflexivity].
  - destruct x as [m|]; simpl.
    2: { right; right. split; [|reflexivity]. exists [], None, l.
         repeat split. constructor. }
    destruct (NewMediaItem_SimpleMediaItem m) as [simple|] eqn:Hs.
    2: { right; right. split; [|reflexivity]. exists [], (Some m), l.
         repeat split; [|constructor]. unfold token_at, token. simpl.
         now rewrite Hs. }
    destruct (String.eqb_spec (UploadToken simple) uploadToken) as [E|E].
    { right; left. exists [], m, l. repeat split; [|constructor].
      unfold token. now rewrite Hs, <- E. }
    assert (Hm : passes uploadToken (Some m)).
    { exists (UploadToken simple). unfold token_at, token. simpl.
      now rewrite Hs. }
    destruct IH as [[Hall E'] | [(b & y & a & -> & Ht & Hb & E')
                               | ((b & y & a & -> & Ht & Hb) & E')]].
    + left. split; [now constructor | assumption].
    + right; left. exists (Some m :: b), y, a.
      repeat split; try assumption. now constructor.
    + right; right. split; [|assumption]. exists (Some m :: b), y, a.
      repeat split; try assumption. now constructor.
Qed.

(** In a list, the first element that a predicate does not hold of is at
    one place only. *)
Lemma first_failure {A : Type} (P : A -> Prop) (b b' a a' : list A) (x x' : A) :
  b ++ x :: a = b' ++ x' :: a' ->
  Forall P b -> ~ P x -> Forall P b' -> ~ P x' ->
  b = b' /\ x = x' /\ a = a'.
Proof.
  revert b'. induction b as [|y b IH]; intros [|y' b'] E Hb Hx Hb' Hx';
    simpl in E; injection E as ? E; subst.
  - now repeat split.
  - inversion Hb'; contradiction.
  - inversion Hb; contradiction.
  - inversion Hb; inversion Hb'; subst.
    destruct (IH b' E) as (-> & -> & ->); try assumption. now repeat split.
Qed.

Lemma not_passes_match (uploadToken : string) (m : NewMediaItem) :
  token m = Some uploadToken -> ~ passes uploadToken (Some m).
Proof. intros Ht (t & Ht' & Hne). simpl in Ht'. congruence. Qed.

Lemma not_passes_missing (uploadToken : string) (m : option NewMediaItem) :
  token_at m = None -> ~ passes uploadToken m.
Proof. intros Ht (t & Ht' & _). congruence. Qed.

Lemma find_Returned_Some (mediaItems : list (option NewMediaItem))
    (uploadToken : string) (mediaItem : NewMediaItem) :
  findMediaItemByUploadToken mediaItems uploadToken = Returned (Some mediaItem) <->
  exists before after,
    mediaItems = before ++ Some mediaItem :: after /\
    token mediaItem = Some uploadToken /\
    Forall (passes uploadToken) before.
Proof.
  destruct (find_outcome mediaItems uploadToken)
    as [[Hall E] | [(b & y & a & El & Ht & Hb & E) | ((b & y & a & El & Ht & Hb) & E)]];
    rewrite E; split.
  - discriminate.
  - intros (b & a & -> & Ht & _). exfalso.
    apply Forall_app in Hall as [_ Hall]. inversion Hall; subst.
    now apply (not_passes_match uploadToken mediaItem).
  - intros [= <-]. now exists b, a.
  - intros (b' & a' & El' & Ht' & Hb'). rewrite El in El'.
    destruct (first_failure _ _ _ _ _ _ _ El' Hb
                (not_passes_match _ _ Ht) Hb' (not_passes_match _ _ Ht'))
      as (_ & [= ->] & _).
    reflexivity.
  - discriminate.
  - intros (b' & a' & El' & Ht' & Hb'). rewrite El in El'.
    destruct (first_failure _ _ _ _ _ _ _ El' Hb
                (not_passes_missing _ _ Ht) Hb' (not_passes_match _ _ Ht'))
      as (_ & -> & _).
    simpl in Ht. congruence.
Qed.



Lemma present_never_stumbles (mediaItems : list (option NewMediaItem))
    (uploadToken : string) :
  items_present mediaItems -> ~ stumbles mediaItems uploadToken.
Proof.
  intros Hall (b & x & a & -> & Hx & _).
  apply Forall_app in Hall as [_ Hall]. inversion Hall as [|? ? [t Ht]]; subst.
  congruence.
Qed.

Lemma printed_app (evs evs' : list Event) :
  printed (evs ++ evs') = printed evs ++ printed evs'.
Proof. unfold printed. apply omap_app. Qed.

Lemma printed_concat (ls : list (list Event)) :
  printed (concat ls) = concat (map printed ls).
Proof.
  induction ls as [|l ls IH]; simpl; [reflexivity|].
  now rewrite printed_app, IH.
Qed.

(** One turn of the loop: it prints what is due for a result with a
    status, or it panics at a result that aborts. *)
Lemma reconcile_outcome (mediaItems : list (option NewMediaItem))
    (result : option NewMediaItemResult) :
  (exists evs,
      reconcile mediaItems result = Returned evs /\
      is_Some (status_at result) /\
      reconciled mediaItems result (printed evs) /\
      length (printed evs) = if rejected result then 1%nat else 0%nat) \/
  (reconcile mediaItems result = Panicked /\ aborts mediaItems result).
Proof.
  unfold reconcile, rejected. destruct result as [r|]; simpl.
  2: { right. split; [reflexivity | now apply aborts_no_status]. }
  destruct (Result_Status r) as [status|] eqn:Hst.
  2: { right. split; [reflexivity|]. apply aborts_no_status. simpl.
       exact Hst. }
  assert (Hsome : is_Some (Some status)) by eauto.
  destruct (Z.eqb_spec (Code status) 0) as [E|E]; cbn [negb].
  { left. exists []. split; [reflexivity|]. split; [assumption|].
    split; [eapply reconciled_accepted; eassumption | reflexivity]. }
  destruct (find_outcome mediaItems (Result_UploadToken r))
    as [[Hall Ef] | [(b & m & a & El & Ht & Hb & Ef) | (Hs & Ef)]];
    rewrite Ef.
  - left. eexists. split; [reflexivity|]. split; [assumption|].
    split; [|reflexivity].
    eapply reconciled_unknown; try eassumption.
    eapply Forall_impl; [exact Hall | apply passes_not_token].
  - left. eexists. split; [reflexivity|]. split; [assumption|].
    split; [|reflexivity].
    eapply reconciled_skipped; try eassumption.
    eapply Forall_impl; [exact Hb | apply passes_not_token].
  - right. split; [reflexivity|]. eapply aborts_lookup; eassumption.
Qed.

Lemma present_never_aborts (mediaItems : list (option NewMediaItem))
    (result : option NewMediaItemResult) :
  items_present mediaItems -> is_Some (status_at result) ->
  ~ aborts mediaItems result.
Proof.
  intros Hitems [status Hst] Habort. destruct Habort as [r Hnone | r st _ _ Hs].
  - congruence.
  - now apply (present_never_stumbles _ _ Hitems) in Hs.
Qed.

(** The loop: the results up to the first that aborts are treated one by
    one, and the loop ends after the last or panics at that one. *)
Lemma reconcile_all_outcome (mediaItems : list (option NewMediaItem))
    (results : list (option NewMediaItemResult)) :
  exists done rest (lines : list (list string)),
    results = done ++ rest /\
    statuses_present done /\
    printed (fst (reconcile_all mediaItems results)) = concat lines /\
    Forall2 (reconciled mediaItems) done lines /\
    length (concat lines) = length (List.filter rejected done) /\
    ((rest = [] /\ snd (reconcile_all mediaItems results) = Returned tt) \/
     (exists result rest',
         rest = result :: rest' /\ aborts mediaItems result /\
         snd (reconcile_all mediaItems results) = Panicked)).
Proof.
  induction results as [|r rs IH]; simpl.
  - exists [], [], []. split; [reflexivity|]. split; [constructor|].
    split; [reflexivity|]. split; [constructor|]. split; [reflexivity|].
    now left.
  - destruct (reconcile_outcome mediaItems r)
      as [(evs & E & Hst & Hrec & Hlen) | (E & Habort)]; rewrite E.
    + destruct IH as (done & rest & lines & -> & Hdone & Hp & Hall & Hcount & Hend).
      destruct (reconcile_all mediaItems (done ++ rest)) as [evs' end_].
      simpl in *. exists (r :: done), rest, (printed evs :: lines).
      split; [reflexivity|]. split; [now constructor|].
      split; [now rewrite printed_app, Hp|]. split; [now constructor|].
      split; [|assumption].
      simpl. rewrite length_app, Hlen, Hcount. now destruct (rejected r).
    + exists [], (r :: rs), []. split; [reflexivity|]. split; [constructor|].
      split; [reflexivity|]. split; [constructor|]. split; [reflexivity|].
      right. now exists r, rs.
Qed.

Lemma reconcile_all_no_call (mediaItems : list (option NewMediaItem))
    (results : list (option NewMediaItemResult)) :
  List.filter (fun ev => match ev with EvBatchCreate _ => true | _ => false end)
    (fst (reconcile_all mediaItems results)) = [].
Proof.
  induction results as [|r rs IH]; simpl; [reflexivity|].
  destruct (reconcile mediaItems r) as [evs|] eqn:E; [|reflexivity].
  destruct (reconcile_all mediaItems rs) as [evs' end_]. simpl in *.
  rewrite List.filter_app, IH, app_nil_r.
  unfold reconcile in E. destruct r as [r|]; [|discriminate].
  destruct (Result_Status r); [|discriminate].
  destruct (negb _); [|now injection E as <-].
  destruct (findMediaItemByUploadToken _ _) as [[m|]|];
    [injection E as <- | injection E as <- | discriminate]; reflexivity.
Qed.

Lemma present_returns (mediaItems : list (option NewMediaItem))
    (results : list (option NewMediaItemResult)) :
  items_present mediaItems -> statuses_present results ->
  snd (reconcile_all mediaItems results) = Returned tt /\
  exists lines : list (list string),
    printed (fst (reconcile_all mediaItems results)) = concat lines /\
    Forall2 (reconciled mediaItems) results lines.
Proof.
  intros Hitems Hresults.
  destruct (reconcile_all_outcome mediaItems results)
    as (done & rest & lines & -> & _ & Hp & Hall & _ & Hend).
  destruct Hend as [[-> E] | (r & rest' & -> & Habort & _)].
  - rewrite app_nil_r in *. split; [assumption|]. now exists lines.
  - exfalso. apply Forall_app in Hresults as [_ Hr]. inversion Hr; subst.
    now apply (present_never_aborts mediaItems r).
Qed.

(** C3.  [Append] makes one batch-create call and returns an error exactly
    when that call fails, the error being the call's; when the call
    answers, [Append] returns no error whatever the status codes of the
    results: it returns nil, or it panics on a nil pointer, and it returns
    nil whenever every item carries its [SimpleMediaItem] and every result
    its [Status]. *)
Theorem Append_error_iff_call_fails (p : World) (album : option Album)
    (mediaItems : list (option NewMediaItem)) :
  (forall err,
      snd (Append p album mediaItems) = Returned (Some err) <->
      MediaItems_BatchCreate_Do p (Append_request album mediaItems) = inr err) /\
  (forall batch,
      MediaItems_BatchCreate_Do p (Append_request album mediaItems) = inl batch ->
      snd (Append p album mediaItems) = Returned None \/
      snd (Append p album mediaItems) = Panicked) /\
  (forall batch,
      MediaItems_BatchCreate_Do p (Append_request album mediaItems) = inl batch ->
      items_present mediaItems ->
      statuses_present (NewMediaItemResults batch) ->
      snd (Append p album mediaItems) = Returned None) /\
  List.filter (fun ev => match ev with EvBatchCreate _ => true | _ => false end)
    (fst (Append p album mediaItems))
  = [EvBatchCreate (Append_request album mediaItems)].
Proof.
  unfold Append.
  destruct (MediaItems_BatchCreate_Do p (Append_request album mediaItems))
    as [batch|e].
  2: { simpl. repeat split; try congruence; discriminate. }
  pose proof (reconcile_all_no_call mediaItems (NewMediaItemResults batch)) as Hcall.
  pose proof (present_returns mediaItems (NewMediaItemResults batch)) as Hret.
  destruct (reconcile_all mediaItems (NewMediaItemResults batch)) as [evs end_].
  simpl in *. split; [|split; [|split]].
  - intros err. split; [|discriminate]. now destruct end_.
  - intros _ _. destruct end_; [now left | now right].
  - intros _ [= <-] Hitems Hresults.
    destruct (Hret Hitems Hresults) as [-> _]. reflexivity.
  - now rewrite Hcall.
Qed.

Lemma Append_error_iff_call_fails_witness :
  snd (Append Sample.offline None []) = Returned (Some "dial tcp: no route to host").
Proof.
  apply (proj1 (Append_error_iff_call_fails Sample.offline None [])). reflexivity.
Defined.


(** The same happens at a result without a status: the results after it
    are not looked at. *)
Example Append_result_without_status :
  Append (Sample.answering [Sample.result_without_status "T1";
                            Sample.result 5 "PERMISSION_DENIED" "T2"])
    None [Sample.item "b.jpg" "T2"]
  = ([EvBatchCreate {| AlbumId := ""; NewMediaItems := [Sample.item "b.jpg" "T2"] |}],
     Panicked).
Proof. reflexivity. Qed.






(** ** The goroutines: steps *)

Lemma step_Step (a : Action) (s s' : State) : step a s = Some s' -> Step s s'.
Proof.
  destruct a as [|i w|]; simpl.
  - unfold UploadFiles_step. destruct (main s) as [i|mediaItems|mediaItems] eqn:Hmain.
    + destruct (Z.ltb_spec i uploadConcurrency); intros [= <-].
      * now apply step_spawn.
      * now apply step_supervise with i.
    + destruct (aggregateQueue s) as [|mediaItem rest] eqn:Hqueue.
      * destruct (aggregateQueue_closed s) eqn:Hclosed; intros [= <-].
        now apply step_return.
      * intros [= <-]. now apply step_collect.
    + discriminate.
  - unfold uploadWorker_step.
    destruct (workers s !! i) as [[|filepath|filepath mediaItem [e|]| |]|] eqn:Hw;
      try discriminate.
    + destruct (uploadQueue s) as [|filepath rest] eqn:Hqueue.
      * destruct (Z.ltb_spec 0 (workerGroup s)); intros [= <-].
        -- now apply step_exit.
        -- now apply step_done_panics.
      * intros [= <-]. now apply step_receive.
    + pose proof (step_upload s i filepath w Hw) as Hstep.
      destruct (UploadFile w filepath) as [evs [item err]].
      intros [= <-]. exact Hstep.
    + intros [= <-]. eapply step_report, Hw.
    + destruct (aggregateQueue_closed s) eqn:Hclosed.
      * intros [= <-]. eapply step_send_panics; eassumption.
      * destruct (Nat.ltb_spec (length (aggregateQueue s)) (aggregateQueue_cap s));
          intros [= <-].
        eapply step_send; eassumption.
  - unfold closer_step. destruct (closer s) eqn:Hcloser; try discriminate.
    destruct (Z.eqb_spec (workerGroup s) 0); intros [= <-].
    now apply step_close.
Qed.

Ltac decide_guards :=
  repeat match goal with
         | |- context [?a <? ?b] => destruct (Z.ltb_spec a b); try lia
         | |- context [?a =? ?b] => destruct (Z.eqb_spec a b); try lia
         | |- context [(?a <? ?b)%nat] => destruct (Nat.ltb_spec a b); try lia
         end.

Lemma Step_step (s s' : State) : Step s s' -> exists a, step a s = Some s'.
Proof.
  intros H.
  destruct H;
    [exists RunMain | exists RunMain | exists RunMain | exists RunMain
    |exists (RunWorker i Sample.world) | exists (RunWorker i Sample.world)
    |exists (RunWorker i Sample.world) | exists (RunWorker i w)
    |exists (RunWorker i Sample.world) | exists (RunWorker i Sample.world)
    |exists (RunWorker i Sample.world) | exists RunCloser].
  all: simpl; unfold UploadFiles_step, uploadWorker_step, closer_step;
    repeat match goal with
           | E : _ = _ |- _ => rewrite E
           end;
    try match goal with
        | |- context [UploadFile ?w ?f] => destruct (UploadFile w f) as [? [? ?]]
        end;
    decide_guards; reflexivity.
Qed.

(** Runs, as sequences of steps. *)
Lemma run_app (acts acts' : list Action) (s s' s'' : State) :
  run acts s = Some s' -> run acts' s' = Some s'' ->
  run (acts ++ acts') s = Some s''.
Proof.
  revert s. induction acts as [|a acts IH]; intros s; simpl.
  - now intros [= ->].
  - destruct (step a s); [apply IH | discriminate].
Qed.

Lemma run_invariant (P : State -> Prop) :
  (forall s s', P s -> Step s s' -> P s') ->
  forall acts s s', P s -> run acts s = Some s' -> P s'.
Proof.
  intros Hstep acts. induction acts as [|a acts IH]; intros s s' Hs; simpl.
  - now intros [= <-].
  - destruct (step a s) as [s1|] eqn:Ha; [|discriminate].
    apply IH. eapply Hstep; [exact Hs | eapply step_Step, Ha].
Qed.

(** Replacing worker [i] changes one position of the list. *)
Lemma worker_split (ws : list Worker) (i : nat) (w w' : Worker) :
  ws !! i = Some w ->
  exists l1 l2, ws = l1 ++ w :: l2 /\ <[i:=w']> ws = l1 ++ w' :: l2.
Proof.
  intros H. exists (take i ws), (drop (S i) ws). split.
  - symmetry. now apply take_drop_middle.
  - apply insert_take_drop. now apply lookup_lt_Some with w.
Qed.

(** ** The goroutines and the channels agree *)

Lemma Structure_start (filepaths : list string) : Structure filepaths (start filepaths).
Proof.
  constructor; simpl; try reflexivity; try discriminate.
  - intros H. now apply elem_of_nil in H.
  - intros H. now apply elem_of_nil in H.
  - unfold uploadConcurrency. repeat split; lia.
Qed.

Lemma alive_count_app (l1 l2 : list Worker) (w : Worker) :
  Z.of_nat (length (List.filter alive (l1 ++ w :: l2)))
  = Z.of_nat (length (List.filter alive (l1 ++ l2)))
    + (if alive w then 1 else 0).
Proof.
  rewrite !List.filter_app, !length_app. simpl.
  destruct (alive w); simpl; lia.
Qed.

Lemma worker_elem_split (w0 : Worker) (l1 l2 : list Worker) (w : Worker) :
  w0 ∈ l1 ++ w :: l2 <-> w = w0 \/ w0 ∈ l1 ++ l2.
Proof.
  rewrite !elem_of_app, elem_of_cons. intuition congruence.
Qed.

Lemma Structure_step (filepaths : list string) (s s' : State) :
  Structure filepaths s -> Step s s' -> Structure filepaths s'.
Proof.
  intros [Hcap Hgroup Hexited Hsafe Hclosed Hcloser Hmain] Hstep.
  destruct Hstep;
    try match goal with
        | Hw : workers s !! ?i = Some ?w |- context [set_worker ?i ?w' _] =>
            destruct (worker_split _ _ _ w' Hw) as (l1 & l2 & E & E');
            unfold set_worker; simpl workers; rewrite E'; rewrite E in *; clear E'
        end;
    constructor; simpl;
    rewrite ?alive_count_app in *; rewrite ?worker_elem_split in *;
    rewrite ?length_app in *; simpl in *.
  all: rewrite ?app_nil_r in *.
  all: try match goal with
           | Hm : main _ = _ |- _ => rewrite Hm in Hmain
           end.
  all: try match goal with
           | |- context [main ?s0] => destruct (main s0)
           end.
  all: try match goal with
           | Hq : uploadQueue _ = _ |- _ => rewrite Hq in *
           end.
  all: match goal with
       | _ : context [closer ?s0] |- _ => destruct (closer s0) eqn:Hc
       end; simpl in *.
  all: unfold uploadConcurrency, make_slice, append in *.
  all: solve [intuition (try congruence; try discriminate; try lia)].
Qed.

(** No send meets a closed channel and no [Done] a counter of zero. *)
Lemma send_is_safe (filepaths : list string) (s : State) (i : nat)
    (filepath : string) (mediaItem : pointer) :
  Structure filepaths s ->
  workers s !! i = Some (WReturned filepath mediaItem None) ->
  aggregateQueue_closed s = false.
Proof.
  intros Hs Hw. rewrite (st_closed _ _ Hs).
  destruct (closer s) eqn:Hc; try reflexivity.
  pose proof (st_closer _ _ Hs Hc) as Hzero. rewrite (st_group _ _ Hs) in Hzero.
  destruct (worker_split _ _ _ WRange Hw) as (l1 & l2 & E & _).
  rewrite E, alive_count_app in Hzero. simpl in Hzero. lia.
Qed.

Lemma done_is_safe (filepaths : list string) (s : State) (i : nat) :
  Structure filepaths s -> workers s !! i = Some WRange -> 0 < workerGroup s.
Proof.
  intros Hs Hw. rewrite (st_group _ _ Hs).
  destruct (worker_split _ _ _ WRange Hw) as (l1 & l2 & E & _).
  rewrite E, alive_count_app. simpl. lia.
Qed.

(** ** Where the paths and the items are *)

(** Both sides list the same pieces in the same order, up to the places of
    single elements. *)
Ltac same_pieces :=
  simpl; rewrite <- ?app_assoc; simpl;
  rewrite <- ?Permutation_middle; rewrite ?app_nil_r; reflexivity.

Ltac split_worker :=
  match goal with
  | Hw : workers ?s !! ?i = Some ?w |- context [set_worker ?i ?w' _] =>
      let l1 := fresh "l1" in
      let l2 := fresh "l2" in
      let E := fresh "E" in
      let E' := fresh "E'" in
      destruct (worker_split _ _ _ w' Hw) as (l1 & l2 & E & E');
      unfold set_worker; simpl workers; rewrite E'; rewrite E in *; clear E'
  end.

Lemma Paths_start (filepaths : list string) : Paths filepaths (start filepaths).
Proof. unfold Paths. reflexivity. Qed.

Lemma Paths_step (filepaths : list string) (s s' : State) :
  Paths filepaths s -> Step s s' -> Paths filepaths s'.
Proof.
  unfold Paths, in_flight. intros Hp Hstep.
  destruct Hstep; try split_worker; simpl;
    rewrite ?flat_map_app in *; simpl in *; rewrite ?app_nil_r in *;
    try assumption.
  - rewrite H0 in Hp. rewrite Hp. same_pieces.
  - rewrite map_app. simpl. rewrite Hp. same_pieces.
Qed.

Lemma Items_start (filepaths : list string) : Items (start filepaths).
Proof. constructor; reflexivity. Qed.

Lemma filter_ok_snoc (cs : list Call) (c : Call) :
  List.filter call_ok (cs ++ [c])
  = List.filter call_ok cs ++ (if call_ok c then [c] else []).
Proof. rewrite List.filter_app. simpl. now destruct (call_ok c). Qed.

Lemma Items_step (filepaths : list string) (s s' : State) :
  Structure filepaths s -> Items s -> Step s s' -> Items s'.
Proof.
  intros Hs [Halloc Hheap Hwhere] Hstep.
  destruct Hstep;
    try match goal with
        | Hc : aggregateQueue_closed _ = true,
          Hw : workers _ !! _ = Some (WReturned _ _ None) |- _ =>
            rewrite (send_is_safe _ _ _ _ _ Hs Hw) in Hc; discriminate Hc
        end;
    clear Hs; try split_worker;
    try match goal with
        | Hm : main _ = _ |- _ => rewrite Hm in Hwhere
        end;
    try match goal with
        | Hq : aggregateQueue _ = _ |- _ => rewrite Hq in Hwhere
        end.
  1-7,9-11: constructor; simpl;
    rewrite ?flat_map_app in *; simpl in *; rewrite ?app_nil_r in *;
    try assumption;
    try match goal with
        | Hq : aggregateQueue _ = _ |- _ => rewrite ?Hq
        end;
    rewrite Hwhere; same_pieces.
  (* the return of a call *)
  set (c := {| call_filepath := filepath; call_world := w;
               call_mediaItem :=
                 match fst (snd (UploadFile w filepath)) with
                 | Some _ => Some (length (heap s))
                 | None => None
                 end |}).
  assert (Hc : call_item c = fst (snd (UploadFile w filepath)) /\
               call_err c = snd (snd (UploadFile w filepath))) by now split.
  destruct Hc as [Hitem Herr].
  unfold finish_call, Printf. fold c.
  rewrite flat_map_app in Hwhere. simpl in Hwhere.
  destruct (UploadFile_outcome w filepath)
    as [(k & msg & _ & Ew)|(body & _ & Ew)];
    rewrite Ew in *; simpl in Hitem, Herr;
    constructor; simpl;
    rewrite filter_ok_snoc; unfold call_ok at 2; rewrite Herr;
    rewrite ?flat_map_app; simpl; rewrite ?app_nil_r; try assumption.
  - rewrite length_app, seq_app, !map_app, Halloc. simpl. now rewrite Ew.
  - rewrite !map_app, Hheap. simpl. now rewrite Hitem.
  - rewrite map_app, Hwhere. simpl. rewrite Ew. same_pieces.
Qed.

(** ** Every schedule is finite and never stuck *)

Lemma steps_left_step (s s' : State) :
  Step s s' -> (steps_left s' < steps_left s)%nat.
Proof.
  intros Hstep. unfold steps_left.
  destruct Hstep; try split_worker; simpl;
    repeat match goal with
           | H : _ = _ |- _ => rewrite H
           end;
    rewrite ?sum_list_with_app, ?length_app; simpl;
    unfold uploadConcurrency in *; lia.
Qed.

Lemma run_steps_left (acts : list Action) (s s' : State) :
  run acts s = Some s' -> (length acts + steps_left s' <= steps_left s)%nat.
Proof.
  revert s. induction acts as [|a acts IH]; intros s; simpl.
  - intros [= <-]. lia.
  - destruct (step a s) as [s1|] eqn:Ha; [|discriminate].
    intros Hrun. apply IH in Hrun.
    apply step_Step, steps_left_step in Ha. lia.
Qed.

Lemma steps_left_start (filepaths : list string) :
  steps_left (start filepaths) = (4 * length filepaths + 9)%nat.
Proof. unfold steps_left. simpl. lia. Qed.

Lemma Invariant_step (filepaths : list string) (s s' : State) :
  Invariant filepaths s -> Step s s' -> Invariant filepaths s'.
Proof.
  intros (Hs & Hp & Hi) Hstep. split; [|split].
  - now apply Structure_step with s.
  - now apply Paths_step with s.
  - now apply Items_step with filepaths s.
Qed.

Lemma Invariant_run (filepaths : list string) (acts : list Action) (s : State) :
  run acts (start filepaths) = Some s -> Invariant filepaths s.
Proof.
  apply (run_invariant (Invariant filepaths)).
  - apply Invariant_step.
  - split; [|split].
    + apply Structure_start.
    + apply Paths_start.
    + apply Items_start.
Qed.

Lemma some_alive (ws : list Worker) :
  length (List.filter alive ws) <> 0%nat ->
  exists i w, ws !! i = Some w /\ alive w = true.
Proof.
  destruct (List.filter alive ws) as [|w l] eqn:E; [easy|]. intros _.
  assert (Hin : In w (List.filter alive ws)) by (rewrite E; now left).
  apply List.filter_In in Hin as [Hin Halive].
  apply list_elem_of_In, list_elem_of_lookup_1 in Hin as [i Hi].
  now exists i, w.
Qed.

Lemma none_alive (ws : list Worker) :
  length (List.filter alive ws) = 0%nat ->
  flat_map uploading ws = [] /\ flat_map outgoing ws = [] /\
  (ws <> [] -> WExited ∈ ws).
Proof.
  induction ws as [|w ws IH]; simpl; [easy|].
  destruct w; simpl; try discriminate.
  intros H. destruct (IH H) as (Hu & Ho & _). repeat split; try assumption.
  intros _. apply list_elem_of_here.
Qed.

(** The buffer of [aggregateQueue] has room for every item that a worker
    is about to send. *)
Lemma room_to_send (filepaths : list string) (s : State) :
  Invariant filepaths s ->
  (length (flat_map outgoing (workers s)) + length (aggregateQueue s)
   + length (collected (main s)) <= aggregateQueue_cap s)%nat.
Proof.
  intros (Hs & Hp & Hi). rewrite (st_cap _ _ Hs).
  pose proof (Permutation_length (it_where _ Hi)) as Hlen.
  pose proof (Permutation_length Hp) as Hlen'.
  rewrite !length_app, !length_map in *.
  pose proof (List.filter_length_le call_ok (calls s)). lia.
Qed.

(** Before [UploadFiles] has returned some goroutine can take a step, and
    with any world [w] to answer the call if the step is the return of
    [UploadFile]. *)
Lemma progress (w : World) (filepaths : list string) (s : State) :
  Invariant filepaths s -> returned s = None ->
  exists s', Step s s' /\
    (calls s' = calls s \/
     exists c, calls s' = calls s ++ [c] /\ call_world c = w).
Proof.
  intros Hinv Hnot. pose proof (room_to_send _ _ Hinv) as Hroom.
  destruct Hinv as (Hs & Hp & Hi). unfold returned in Hnot.
  pose proof (st_main _ _ Hs) as Hmain.
  destruct (main s) as [i|mediaItems|mediaItems] eqn:Em; [| |discriminate].
  - destruct (Z.lt_ge_cases i uploadConcurrency).
    + eexists. split; [eapply step_spawn; eassumption|]. now left.
    + eexists. split; [eapply step_supervise; eassumption|]. now left.
  - destruct (aggregateQueue s) as [|mediaItem rest] eqn:Eq.
    2: { eexists. split; [eapply step_collect; eassumption|]. now left. }
    destruct (aggregateQueue_closed s) eqn:Ec.
    { eexists. split; [eapply step_return; eassumption|]. now left. }
    rewrite (st_closed _ _ Hs) in Ec.
    destruct (closer s) eqn:Ecl; [now destruct Hmain as (_ & ? & _)| |discriminate].
    destruct (Z.eq_dec (workerGroup s) 0) as [Hzero|Hpos].
    { eexists. split; [eapply step_close; eassumption|]. now left. }
    rewrite (st_group _ _ Hs) in Hpos.
    destruct (some_alive (workers s)) as (j & wk & Hj & Halive); [lia|].
    destruct wk as [|filepath|filepath mediaItem [e|]| |]; [| | | |discriminate|].
    2: { eexists. split; [eapply step_upload with (w := w), Hj|].
         right. eexists. split; reflexivity. }
    4: { exfalso. apply (st_safe _ _ Hs). eapply list_elem_of_lookup_2, Hj. }
    + pose proof (done_is_safe _ _ _ Hs Hj) as Hdone.
      destruct (uploadQueue s) as [|filepath rest] eqn:Eu.
      * eexists. split; [eapply step_exit; eassumption|]. now left.
      * eexists. split; [eapply step_receive; eassumption|]. now left.
    + eexists. split; [eapply step_report, Hj|]. now left.
    + assert (Hlt : (length (aggregateQueue s) < aggregateQueue_cap s)%nat).
      { destruct (worker_split _ _ _ WRange Hj) as (l1 & l2 & E & _).
        rewrite E, flat_map_app, length_app in Hroom. simpl in Hroom.
        rewrite Eq. simpl. lia. }
      pose proof (send_is_safe _ _ _ _ _ Hs Hj) as Hopen.
      eexists. split; [eapply step_send; eassumption | now left].
Qed.

(** Every run can be continued until [UploadFiles] returns, with any world
    [w] answering the calls still to be made. *)
Lemma run_completes (w : World) (P : Call -> Prop) (filepaths : list string) :
  (forall c, call_world c = w -> P c) ->
  forall (n : nat) (s : State),
    (steps_left s < n)%nat -> Invariant filepaths s -> Forall P (calls s) ->
    exists acts s' mediaItems,
      run acts s = Some s' /\ returned s' = Some mediaItems /\
      Forall P (calls s').
Proof.
  intros HP n. induction n as [|n IH]; intros s Hn Hinv Hall; [lia|].
  destruct (returned s) as [mediaItems|] eqn:Hret.
  { now exists [], s, mediaItems. }
  destruct (progress w _ _ Hinv Hret) as (s1 & Hstep & Hcalls).
  destruct (IH s1) as (acts & s' & mediaItems & Hrun & Hret' & Hall').
  - apply steps_left_step in Hstep. lia.
  - now apply Invariant_step with s.
  - destruct Hcalls as [-> | (c & -> & Hw)]; [assumption|].
    apply Forall_app. split; [assumption|]. constructor; [|constructor].
    now apply HP.
  - apply Step_step in Hstep as [a Ha].
    exists (a :: acts), s', mediaItems. simpl. now rewrite Ha.
Qed.

(** What holds once [UploadFiles] has returned. *)
Lemma at_return (filepaths : list string) (s : State) (mediaItems : slice pointer) :
  Invariant filepaths s -> returned s = Some mediaItems ->
  mediaItems <> nil_slice /\
  map call_filepath (calls s) ≡ₚ filepaths /\
  elems mediaItems ≡ₚ map call_mediaItem (List.filter call_ok (calls s)).
Proof.
  intros (Hs & Hp & Hi) Hret. unfold returned in Hret.
  pose proof (st_main _ _ Hs) as Hmain. pose proof (it_where _ Hi) as Hwhere.
  destruct (main s) as [| |items] eqn:Em; try discriminate.
  injection Hret as ->. destruct Hmain as (Hlen & Hcl & Hq & Hnil).
  pose proof (st_closer _ _ Hs Hcl) as Hzero. rewrite (st_group _ _ Hs) in Hzero.
  destruct (none_alive (workers s)) as (Hu & Ho & Hex); [lia|].
  assert (Hempty : uploadQueue s = []).
  { apply (st_exited _ _ Hs), Hex. intros E. rewrite E in Hlen.
    unfold uploadConcurrency in Hlen. simpl in Hlen. lia. }
  unfold Paths, in_flight in Hp. rewrite Hu, Hempty, app_nil_r in Hp.
  rewrite Ho, Hq in Hwhere. simpl in Hwhere.
  repeat split; [assumption | now symmetry | now symmetry].
Qed.

Lemma lookup_map {A B : Type} (f : A -> B) (l : list A) (i : nat) :
  map f l !! i = f <$> l !! i.
Proof.
  revert i. induction l as [|x l IH]; intros [|i]; simpl; try reflexivity.
  apply IH.
Qed.

(** The pointer of a call that succeeded is the address of the item that
    the call built. *)
Lemma call_ok_item (s : State) (c : Call) :
  Items s -> c ∈ calls s -> call_ok c = true ->
  exists a item,
    call_mediaItem c = Some a /\ heap s !! a = Some item /\
    call_item c = Some item.
Proof.
  intros [Halloc Hheap _] Hin Hok.
  assert (Hin' : c ∈ List.filter call_ok (calls s)).
  { apply list_elem_of_In, List.filter_In. split; [|assumption].
    now apply list_elem_of_In. }
  apply list_elem_of_lookup_1 in Hin' as [a Ha].
  assert (H1 : map call_mediaItem (List.filter call_ok (calls s)) !! a
               = Some (call_mediaItem c)) by now rewrite lookup_map, Ha.
  assert (H2 : map call_item (List.filter call_ok (calls s)) !! a
               = Some (call_item c)) by now rewrite lookup_map, Ha.
  rewrite Halloc, lookup_map in H1. rewrite Hheap, lookup_map in H2.
  destruct (seq 0 (length (heap s)) !! a) as [a'|] eqn:Ea; [|discriminate].
  apply lookup_seq in Ea as [-> _]. simpl in H1.
  destruct (heap s !! a) as [item|] eqn:Eh; [|discriminate].
  simpl in H2. exists a, item. repeat split; congruence.
Qed.

Lemma NoDup_ok_items (s : State) :
  Items s -> NoDup (map call_mediaItem (List.filter call_ok (calls s))).
Proof.
  intros [Halloc _ _]. rewrite Halloc.
  apply (NoDup_fmap_2 Some), NoDup_seq.
Qed.

Lemma in_flight_bound (ws : list Worker) :
  (length (flat_map uploading ws) <= length ws)%nat.
Proof.
  induction ws as [|w ws IH]; simpl; [lia|].
  rewrite length_app. destruct w; simpl; lia.
Qed.

Lemma offline_fails (filepath : string) :
  snd (snd (UploadFile Sample.offline filepath))
  = Some ("Could not send a request for uploading file " +:+ filepath
          +:+ ": dial tcp: no route to host").
Proof. reflexivity. Qed.

(** ** Properties of [UploadFiles] *)

(** C1.  Whatever the input, the schedule and the answers of the world:
    a run takes at most [4 * len(filepaths) + 9] steps, no goroutine
    panics, the run is never stuck before [UploadFiles] has returned and
    it can be continued until [UploadFiles] returns; and once it has
    returned, every input path has been the argument of exactly one call
    of [UploadFile], the returned pointers are, up to their order, those
    of the calls that succeeded, one for each, they are at most as many
    as the paths, no two of them are equal, and each is the address of
    the item that its call built. *)
Theorem UploadFiles_returns_successes (filepaths : list string)
    (acts : list Action) (s : State) :
  run acts (start filepaths) = Some s ->
  (length acts <= 4 * length filepaths + 9)%nat /\
  (WPanicked ∉ workers s) /\
  (returned s = None -> exists a s', step a s = Some s') /\
  (exists acts' s' mediaItems,
      run (acts ++ acts') (start filepaths) = Some s' /\
      returned s' = Some mediaItems) /\
  (forall mediaItems, returned s = Some mediaItems ->
     (length (elems mediaItems) <= length filepaths)%nat /\
     map call_filepath (calls s) ≡ₚ filepaths /\
     elems mediaItems ≡ₚ map call_mediaItem (List.filter call_ok (calls s)) /\
     NoDup (elems mediaItems) /\
     (forall c, c ∈ calls s -> call_ok c = true ->
        exists a item,
          call_mediaItem c = Some a /\ heap s !! a = Some item /\
          call_item c = Some item)).
Proof.
  intros Hrun. pose proof (Invariant_run _ _ _ Hrun) as Hinv.
  split; [|split; [|split; [|split]]].
  - apply run_steps_left in Hrun. rewrite steps_left_start in Hrun. lia.
  - destruct Hinv as (Hs & _). apply (st_safe _ _ Hs).
  - intros Hnot.
    destruct (progress Sample.world _ _ Hinv Hnot) as (s' & Hstep & _).
    apply Step_step in Hstep as [a Ha]. now exists a, s'.
  - destruct (run_completes Sample.world (fun _ => True) filepaths
                (fun _ _ => I) (S (steps_left s)) s)
      as (acts' & s' & mediaItems & Hrun' & Hret & _);
      [lia | assumption | now apply Forall_forall |].
    exists acts', s', mediaItems. split; [|assumption].
    now apply run_app with s.
  - intros mediaItems Hret.
    destruct (at_return _ _ _ Hinv Hret) as (_ & Hpaths & Hitems).
    destruct Hinv as (_ & _ & Hi).
    repeat split; try assumption.
    + rewrite Hitems, length_map, <- (Permutation_length Hpaths), length_map.
      apply List.filter_length_le.
    + rewrite Hitems. now apply NoDup_ok_items.
    + intros c. now apply call_ok_item.
Qed.

Lemma UploadFiles_returns_successes_witness :
  run SampleRun.schedule (start SampleRun.paths) = Some SampleRun.final /\
  returned SampleRun.final = Some (mk_slice [Some 0%nat; Some 1%nat]) /\
  map call_filepath (calls SampleRun.final) ≡ₚ SampleRun.paths /\
  NoDup [Some 0%nat; Some 1%nat].
Proof.
  assert (Hrun : run SampleRun.schedule (start SampleRun.paths)
                 = Some SampleRun.final) by (vm_compute; reflexivity).
  split; [exact Hrun|]. split; [reflexivity|].
  destruct (UploadFiles_returns_successes SampleRun.paths SampleRun.schedule
              SampleRun.final Hrun) as (_ & _ & _ & _ & H).
  destruct (H (mk_slice [Some 0%nat; Some 1%nat]) eq_refl)
    as (_ & Hpaths & _ & Hnodup & _).
  exact (conj Hpaths Hnodup).
Defined.

(** C2.  Whatever the input and the schedule, at no moment are more than
    [uploadConcurrency] calls of [UploadFile] in flight, nor more than
    [uploadConcurrency] workers started, and [uploadConcurrency] is 3. *)
Theorem UploadFiles_at_most_three_in_flight (filepaths : list string)
    (acts : list Action) (s : State) :
  run acts (start filepaths) = Some s ->
  Z.of_nat (length (in_flight s)) <= uploadConcurrency /\
  Z.of_nat (length (workers s)) <= uploadConcurrency /\
  uploadConcurrency = 3.
Proof.
  intros Hrun. destruct (Invariant_run _ _ _ Hrun) as (Hs & _ & _).
  assert (Hws : Z.of_nat (length (workers s)) <= uploadConcurrency).
  { pose proof (st_main _ _ Hs) as Hmain.
    destruct (main s); intuition lia. }
  repeat split; try assumption.
  pose proof (in_flight_bound (workers s)). unfold in_flight. lia.
Qed.

Lemma UploadFiles_at_most_three_in_flight_witness :
  run SampleRun.uploads_started (start SampleRun.paths) = Some SampleRun.started /\
  in_flight SampleRun.started = ["ok1.jpg"; "bad.jpg"; "ok2.jpg"] /\
  Z.of_nat (length (in_flight SampleRun.started)) <= uploadConcurrency.
Proof.
  assert (Hrun : run SampleRun.uploads_started (start SampleRun.paths)
                 = Some SampleRun.started) by (vm_compute; reflexivity).
  split; [exact Hrun|]. split; [reflexivity|].
  exact (proj1 (UploadFiles_at_most_three_in_flight SampleRun.paths
                  SampleRun.uploads_started SampleRun.started Hrun)).
Defined.

(** C5.  When the input is empty, or every call of [UploadFile] made so
    far has failed: the run has taken at most [4 * len(filepaths) + 9]
    steps and no goroutine has panicked; the run can be continued, with
    calls that fail, until [UploadFiles] returns the empty slice; if
    [UploadFiles] has not returned yet, a step can be taken
    after which, again, every call made has failed; and if it has
    returned, it has returned the slice that is empty and not nil. *)
Theorem UploadFiles_all_failed_returns_empty (filepaths : list string)
    (acts : list Action) (s : State) :
  run acts (start filepaths) = Some s ->
  filepaths = [] \/ Forall (fun c => call_ok c = false) (calls s) ->
  (length acts <= 4 * length filepaths + 9)%nat /\
  (WPanicked ∉ workers s) /\
  (exists acts' s',
      run (acts ++ acts') (start filepaths) = Some s' /\
      returned s' = Some (mk_slice []) /\
      Forall (fun c => call_ok c = false) (calls s')) /\
  (returned s = None ->
   exists a s',
     step a s = Some s' /\ Forall (fun c => call_ok c = false) (calls s')) /\
  (forall mediaItems, returned s = Some mediaItems ->
     mediaItems = mk_slice [] /\ mediaItems <> nil_slice).
Proof.
  intros Hrun Hfailed. pose proof (Invariant_run _ _ _ Hrun) as Hinv.
  assert (Hall : Forall (fun c => call_ok c = false) (calls s)).
  { destruct Hfailed as [-> | H]; [|assumption].
    destruct Hinv as (_ & Hp & _). unfold Paths in Hp.
    symmetry in Hp. apply Permutation_nil_r in Hp.
    apply app_eq_nil in Hp as [Hp _].
    destruct (calls s); [constructor | discriminate]. }
  assert (Hoffline : forall c, call_world c = Sample.offline -> call_ok c = false).
  { intros c Hw. unfold call_ok, call_err. rewrite Hw. now rewrite offline_fails. }
  assert (Hempty : forall s' mediaItems,
             Invariant filepaths s' -> returned s' = Some mediaItems ->
             Forall (fun c => call_ok c = false) (calls s') ->
             mediaItems = mk_slice [] /\ mediaItems <> nil_slice).
  { intros s' mediaItems Hinv' Hret Hall'.
    destruct (at_return _ _ _ Hinv' Hret) as (Hnil & _ & Hitems).
    split; [|assumption].
    assert (Hnone : List.filter call_ok (calls s') = []).
    { clear -Hall'. induction Hall' as [|c cs Hc _ IH]; simpl; [reflexivity|].
      now rewrite Hc. }
    rewrite Hnone in Hitems. apply Permutation_nil_r in Hitems.
    destruct mediaItems; [contradiction | simpl in Hitems; now subst]. }
  split; [|split; [|split; [|split]]].
  - apply run_steps_left in Hrun. rewrite steps_left_start in Hrun. lia.
  - destruct Hinv as (Hs & _). apply (st_safe _ _ Hs).
  - destruct (run_completes Sample.offline _ filepaths Hoffline
                (S (steps_left s)) s)
      as (acts' & s' & mediaItems & Hrun' & Hret & Hall');
      [lia | assumption | assumption |].
    pose proof (run_app _ _ _ _ _ Hrun Hrun') as Hfull.
    destruct (Hempty s' mediaItems (Invariant_run _ _ _ Hfull) Hret Hall')
      as [-> _].
    now exists acts', s'.
  - intros Hnot.
    destruct (progress Sample.offline _ _ Hinv Hnot)
      as (s' & Hstep & [E | (c & E & Hw)]);
      apply Step_step in Hstep as [a Ha]; exists a, s'; split;
      try assumption; rewrite E; [assumption|].
    apply Forall_app. split; [assumption|]. constructor; [|constructor].
    now apply Hoffline.
  - intros mediaItems Hret. now apply (Hempty s).
Qed.

Lemma UploadFiles_all_failed_returns_empty_witness :
  run SampleRun.failing_schedule (start SampleRun.failing_paths)
  = Some SampleRun.failed /\
  Forall (fun c => call_ok c = false) (calls SampleRun.failed) /\
  returned SampleRun.failed = Some (mk_slice []) /\
  (mk_slice [] : slice pointer) <> nil_slice.
Proof.
  assert (Hrun : run SampleRun.failing_schedule (start SampleRun.failing_paths)
                 = Some SampleRun.failed) by (vm_compute; reflexivity).
  assert (Hfailed : Forall (fun c => call_ok c = false) (calls SampleRun.failed)).
  { repeat constructor. }
  split; [exact Hrun|]. split; [exact Hfailed|]. split; [reflexivity|].
  destruct (UploadFiles_all_failed_returns_empty SampleRun.failing_paths
              SampleRun.failing_schedule SampleRun.failed Hrun
              (or_intror Hfailed)) as (_ & _ & _ & _ & H).
  exact (proj2 (H (mk_slice []) eq_refl)).
Defined.

(** * Further properties *)

(** ** [UploadFile]: what it does on the way *)

(** The events of a call, case by case. *)
Lemma UploadFile_trace (p : World) (filepath : string) :
  fst (UploadFile p filepath)
  = match os_Open p filepath with
    | inr _ => [EvOpen filepath]
    | inl r =>
        match http_NewRequest_check p "POST" (URL (upload_request r filepath)) with
        | Some _ => [EvOpen filepath; EvFileClose r]
        | None =>
            match client_Do p (upload_request r filepath) with
            | inr _ =>
                [EvOpen filepath; EvPrintf ("Uploading " +:+ filepath);
                 EvDo (upload_request r filepath); EvFileClose r]
            | inl res =>
                [EvOpen filepath; EvPrintf ("Uploading " +:+ filepath);
                 EvDo (upload_request r filepath); EvReadAll (Body res);
                 EvBodyClose (Body res); EvFileClose r]
            end
        end
    end.
Proof.
  unfold UploadFile, http_NewRequest.
  destruct (os_Open p filepath) as [r|err]; [|reflexivity].
  change (basePath +:+ apiVersion +:+ "/uploads")
    with (URL (upload_request r filepath)).
  destruct (http_NewRequest_check p "POST" _); [reflexivity|].
  change (Header_Add _ _ _) with (upload_request r filepath).
  destruct (client_Do p (upload_request r filepath)) as [res|err]; [|reflexivity].
  destruct (ioutil_ReadAll p (Body res)); [|reflexivity].
  now destruct (StatusCode res =? 200).
Qed.

(** X1.  A call of [UploadFile] hands at most one request to the client and
    never tries again; a request is handed over only if the file was opened
    and the request could be built, and it is then the POST to the upload
    URL carrying the file as body and the base name of the path in the
    header [X-Goog-Upload-File-Name]; and the call prints [Uploading] with
    the path once for a request handed over and nothing otherwise. *)
Theorem UploadFile_sends_one_request (p : World) (filepath : string) :
  (forall req, EvDo req ∈ fst (UploadFile p filepath) ->
     exists r,
       os_Open p filepath = inl r /\
       http_NewRequest_check p "POST" (URL (upload_request r filepath)) = None /\
       req = upload_request r filepath) /\
  (length (List.filter is_do (fst (UploadFile p filepath))) <= 1)%nat /\
  printed (fst (UploadFile p filepath))
  = map (fun _ => "Uploading " +:+ filepath)
      (List.filter is_do (fst (UploadFile p filepath))).
Proof.
  rewrite UploadFile_trace.
  destruct (os_Open p filepath) as [r|err] eqn:Hopen.
  2: { repeat split; simpl; try lia. intros req Hin. elem_of_cases Hin. }
  destruct (http_NewRequest_check p "POST" _) eqn:Hreq.
  { repeat split; simpl; try lia. intros req Hin. elem_of_cases Hin. }
  destruct (client_Do p (upload_request r filepath)) as [res|err];
    (repeat split; simpl; try lia;
     intros req Hin; elem_of_cases Hin; injection Hin as ->; now exists r).
Qed.

(** ** [path.Base]: the shape of a base name *)

Lemma after_last_slash (s : string) :
  occurs "/" (if 0 <=? path.lastSlash s
              then path.from (Z.to_nat (path.lastSlash s + 1)) s
              else s) = false.
Proof.
  induction s as [|c r IH]; [reflexivity|].
  change (path.lastSlash (String c r))
    with (let j := path.lastSlash r in
          if 0 <=? j then j + 1 else if path.is_slash c then 0 else -1).
  cbv zeta. destruct (Z.leb_spec 0 (path.lastSlash r)) as [Hj|Hj].
  - destruct (Z.leb_spec 0 (path.lastSlash r + 1)); [|lia].
    replace (Z.to_nat (path.lastSlash r + 1 + 1))
      with (S (Z.to_nat (path.lastSlash r + 1))) by lia.
    exact IH.
  - unfold path.is_slash. destruct (Ascii.eqb c "/") eqn:Hc; simpl.
    + exact IH.
    + now rewrite Hc, IH.
Qed.

Lemma Base_shape (filepath : string) :
  path.Base filepath <> "" /\
  (path.Base filepath = "/" \/ occurs "/" (path.Base filepath) = false).
Proof.
  unfold path.Base. destruct (String.eqb filepath ""); [now split; [|right]|].
  pose proof (after_last_slash (path.stripTrailingSlashes filepath)) as Hfree.
  destruct (if 0 <=? path.lastSlash (path.stripTrailingSlashes filepath)
            then _ else _) as [|c t]; simpl.
  - now split; [|left].
  - split; [discriminate | now right].
Qed.

Lemma strip_one_more_slash (q : string) :
  path.stripTrailingSlashes (q +:+ "/") = path.stripTrailingSlashes q.
Proof.
  induction q as [|c q IH]; [reflexivity|]. simpl. now rewrite IH.
Qed.

Lemma Base_trailing_slash (q : string) :
  q <> "" -> path.Base (q +:+ "/") = path.Base q.
Proof.
  intros Hq. unfold path.Base. rewrite strip_one_more_slash.
  apply String.eqb_neq in Hq as ->.
  destruct q; [reflexivity|]. reflexivity.
Qed.

(** X2.  The description of an uploaded item, which is also the file name
    sent to the service, is never empty and contains no slash unless it is
    the single slash of a path made of slashes only; and a slash at the
    end of the path does not change it. *)
Theorem UploadFile_description_shape (p : World) (filepath : string)
    (item : NewMediaItem) :
  fst (snd (UploadFile p filepath)) = Some item ->
  Description item <> "" /\
  (Description item = "/" \/ occurs "/" (Description item) = false) /\
  (forall q, q <> "" -> filepath = q +:+ "/" -> Description item = path.Base q).
Proof.
  intros Hitem.
  destruct (UploadFile_outcome p filepath) as [(k & m & _ & E)|(b & _ & E)];
    rewrite E in Hitem; simpl in Hitem; [discriminate|].
  injection Hitem as <-. simpl.
  destruct (Base_shape filepath) as [Hne Hshape].
  repeat split; try assumption.
  intros q Hq ->. now apply Base_trailing_slash.
Qed.

Lemma UploadFile_description_shape_witness :
  fst (snd (UploadFile Sample.world "album/2018//"))
  = Some {| Description := "2018";
            NewMediaItem_SimpleMediaItem := Some {| UploadToken := "token-873" |} |} /\
  occurs "/" "2018" = false.
Proof.
  split; [reflexivity|].
  destruct (UploadFile_description_shape Sample.world "album/2018//" _ eq_refl)
    as (_ & [H|H] & _); [discriminate H | exact H].
Defined.

(** ** [Append] and the lookup with tokens that are unique *)

Lemma Forall2_elem_l {A B : Type} (R : A -> B -> Prop) (l : list A) (k : list B)
    (x : A) :
  Forall2 R l k -> x ∈ l -> exists y, y ∈ k /\ R x y.
Proof.
  induction 1 as [|a b l k Hab _ IH]; intros Hin.
  - now apply elem_of_nil in Hin.
  - apply elem_of_cons in Hin as [-> | Hin].
    + exists b. split; [apply list_elem_of_here | assumption].
    + destruct (IH Hin) as (y & Hy & HR). exists y.
      split; [now apply list_elem_of_further | assumption].
Qed.

Lemma Forall2_elem_r {A B : Type} (R : A -> B -> Prop) (l : list A) (k : list B)
    (y : B) :
  Forall2 R l k -> y ∈ k -> exists x, x ∈ l /\ R x y.
Proof.
  induction 1 as [|a b l k Hab _ IH]; intros Hin.
  - now apply elem_of_nil in Hin.
  - apply elem_of_cons in Hin as [-> | Hin].
    + exists a. split; [apply list_elem_of_here | assumption].
    + destruct (IH Hin) as (x & Hx & HR). exists x.
      split; [now apply list_elem_of_further | assumption].
Qed.

(** With tokens that are unique, the items before an item pass by. *)
Lemma unique_before (before after : list (option NewMediaItem))
    (mediaItem : NewMediaItem) (uploadToken : string) :
  items_present (before ++ Some mediaItem :: after) ->
  NoDup (map token_at (before ++ Some mediaItem :: after)) ->
  token mediaItem = Some uploadToken ->
  Forall (passes uploadToken) before.
Proof.
  intros Hpresent Hnodup Ht. rewrite map_app in Hnodup. simpl in Hnodup.
  apply NoDup_app in Hnodup as (_ & Hdisj & _).
  apply Forall_app in Hpresent as [Hb _].
  rewrite Forall_forall in Hb. apply Forall_forall. intros x Hx.
  destruct (Hb x Hx) as [t Hxt]. exists t. split; [assumption|].
  intros ->. apply (Hdisj (Some uploadToken)).
  - rewrite <- Hxt. apply list_elem_of_In, List.in_map. now apply list_elem_of_In.
  - rewrite <- Ht. apply list_elem_of_here.
Qed.

Lemma unique_lookup (mediaItems : list (option NewMediaItem))
    (mediaItem : NewMediaItem) (uploadToken : string) :
  items_present mediaItems ->
  NoDup (map token_at mediaItems) ->
  Some mediaItem ∈ mediaItems ->
  token mediaItem = Some uploadToken ->
  findMediaItemByUploadToken mediaItems uploadToken = Returned (Some mediaItem).
Proof.
  intros Hpresent Hnodup Hin Ht.
  apply list_elem_of_split in Hin as (before & after & ->).
  apply find_Returned_Some. exists before, after. repeat split; [assumption|].
  now apply unique_before with after mediaItem.
Qed.




(** X5.  When every item carries its [SimpleMediaItem] and every result
    its [Status], no two items share a token and the batch call answers,
    every refused result that carries the token of a submitted item gets
    the line that names this item. *)
Theorem Append_names_the_item (p : World) (album : option Album)
    (mediaItems : list (option NewMediaItem)) (batch : BatchCreateMediaItemsResponse)
    (result : NewMediaItemResult) (status : Status) (mediaItem : NewMediaItem) :
  items_present mediaItems ->
  NoDup (map token_at mediaItems) ->
  MediaItems_BatchCreate_Do p (Append_request album mediaItems) = inl batch ->
  statuses_present (NewMediaItemResults batch) ->
  Some result ∈ NewMediaItemResults batch ->
  Result_Status result = Some status ->
  Code status <> 0 ->
  Some mediaItem ∈ mediaItems ->
  token mediaItem = Some (Result_UploadToken result) ->
  ("Skipped " +:+ Description mediaItem +:+ ": " +:+ Message status
   +:+ " (" +:+ Fmt.d (Code status) +:+ ")")
  ∈ printed (fst (Append p album mediaItems)).
Proof.
  intros Hpresent Hnodup Hdo Hresults Hres Hst Hcode Hin Htoken.
  unfold Append. rewrite Hdo.
  destruct (present_returns mediaItems (NewMediaItemResults batch) Hpresent Hresults)
    as (_ & lines & Hp & Hall).
  destruct (reconcile_all mediaItems (NewMediaItemResults batch)) as [evs end_].
  simpl in *. change (printed (EvBatchCreate ?r :: evs)) with (printed evs).
  rewrite Hp.
  destruct (Forall2_elem_l _ _ _ _ Hall Hres) as (l & Hl & Hrec).
  apply list_elem_of_In, List.in_concat. exists l.
  split; [now apply list_elem_of_In|].
  pose proof (unique_lookup _ _ _ Hpresent Hnodup Hin Htoken) as Hfind.
  inversion Hrec as [? st Hst' Hzero|? st b m a Hst' _ El Ht Hb|? st Hst' _ Hall'|? ? Hnone];
    subst.
  - congruence.
  - assert (Hm : findMediaItemByUploadToken (b ++ Some m :: a)
                   (Result_UploadToken result) = Returned (Some m)).
    { apply find_Returned_Some. exists b, a. repeat split; [assumption|].
      now apply unique_before with a m. }
    rewrite Hfind in Hm. injection Hm as <-.
    rewrite Hst in Hst'. injection Hst' as <-. now left.
  - exfalso. rewrite Forall_forall in Hall'.
    apply (Hall' (Some mediaItem) Hin). exact Htoken.
  - simpl in Hnone. congruence.
Qed.

Lemma Append_names_the_item_witness :
  "Skipped dup.jpg: ALREADY_EXISTS (6)"
  ∈ printed (fst (Append Sample.world None
                    [Sample.item "dup.jpg" "T2"; Sample.item "new.jpg" "T3"])).
Proof.
  apply (Append_names_the_item Sample.world None
           [Sample.item "dup.jpg" "T2"; Sample.item "new.jpg" "T3"]
           {| NewMediaItemResults :=
                [Sample.result 6 "ALREADY_EXISTS" "T2"; Sample.result 0 "OK" "T3"] |}
           {| Result_Status := Some {| Code := 6; Message := "ALREADY_EXISTS" |};
              Result_UploadToken := "T2" |}
           {| Code := 6; Message := "ALREADY_EXISTS" |}
           {| Description := "dup.jpg";
              NewMediaItem_SimpleMediaItem := Some {| UploadToken := "T2" |} |}).
  - repeat constructor; now eexists.
  - repeat constructor; intros H; elem_of_cases H.
  - reflexivity.
  - repeat constructor; now eexists.
  - apply list_elem_of_here.
  - reflexivity.
  - discriminate.
  - apply list_elem_of_here.
  - reflexivity.
Defined.

(** ** [UploadFiles]: the queue, the log and the end of the goroutines *)

Lemma Dequeued_start (filepaths : list string) : Dequeued filepaths (start filepaths).
Proof. now exists []. Qed.

Lemma Dequeued_step (filepaths : list string) (s s' : State) :
  Dequeued filepaths s -> Step s s' -> Dequeued filepaths s'.
Proof.
  unfold Dequeued, in_flight. intros (taken & Hq & Hp) Hstep.
  destruct Hstep; try split_worker; simpl;
    rewrite ?flat_map_app in *; simpl in *; rewrite ?app_nil_r in *;
    try (exists taken; split; assumption).
  - exists (taken ++ [filepath]). rewrite H0 in Hq. split.
    + now rewrite <- app_assoc.
    + rewrite Hp. same_pieces.
  - exists taken. split; [assumption|].
    rewrite map_app. simpl. rewrite Hp. same_pieces.
Qed.

Lemma Logged_start (filepaths : list string) : Logged filepaths (start filepaths).
Proof. now exists []. Qed.

Lemma Logged_step (filepaths : list string) (s s' : State) :
  Logged filepaths s -> Step s s' -> Logged filepaths s'.
Proof.
  unfold Logged. intros (rest & Hlog & Hp) Hstep.
  destruct Hstep; try split_worker; simpl;
    rewrite ?flat_map_app in *; simpl in *; rewrite ?app_nil_r in *;
    try (exists rest; split; assumption).
  - exists (rest ++ printed (fst (UploadFile w filepath))). split.
    + now rewrite Hlog.
    + unfold call_lines at 2, call_err. simpl.
      rewrite <- Hp.
      destruct (snd (snd (UploadFile w filepath))); simpl; solve_Permutation.
  - exists (rest ++ [report filepath e]). split.
    + now rewrite Hlog.
    + rewrite <- Hp. solve_Permutation.
Qed.

Lemma Dequeued_run (filepaths : list string) (acts : list Action) (s : State) :
  run acts (start filepaths) = Some s -> Dequeued filepaths s.
Proof.
  apply (run_invariant (Dequeued filepaths)).
  - apply Dequeued_step.
  - apply Dequeued_start.
Qed.

Lemma Logged_run (filepaths : list string) (acts : list Action) (s : State) :
  run acts (start filepaths) = Some s -> Logged filepaths s.
Proof.
  apply (run_invariant (Logged filepaths)).
  - apply Logged_step.
  - apply Logged_start.
Qed.

Lemma all_exited (ws : list Worker) :
  length (List.filter alive ws) = 0%nat -> ws = replicate (length ws) WExited.
Proof.
  induction ws as [|w ws IH]; simpl; [reflexivity|].
  destruct w; simpl; try discriminate. intros H. f_equal. now apply IH.
Qed.

(** Once the channel of the results is closed, the three workers are gone. *)
Lemma closed_workers (filepaths : list string) (s : State) :
  Structure filepaths s -> aggregateQueue_closed s = true ->
  workers s = [WExited; WExited; WExited] /\ uploadQueue s = [] /\
  workerGroup s = 0.
Proof.
  intros Hs Hclosed. rewrite (st_closed _ _ Hs) in Hclosed.
  destruct (closer s) eqn:Hc; try discriminate.
  pose proof (st_closer _ _ Hs Hc) as Hzero.
  pose proof (st_group _ _ Hs) as Hgroup. rewrite Hzero in Hgroup.
  pose proof (st_main _ _ Hs) as Hmain.
  assert (Hlen : length (workers s) = 3%nat).
  { unfold uploadConcurrency in Hmain.
    destruct (main s); [|lia|lia]. destruct Hmain as (_ & _ & ?). congruence. }
  assert (Hws : workers s = [WExited; WExited; WExited]).
  { rewrite (all_exited (workers s)) by lia. now rewrite Hlen. }
  repeat split; try assumption.
  apply (st_exited _ _ Hs). rewrite Hws. apply list_elem_of_here.
Qed.

Lemma returned_closed (filepaths : list string) (s : State)
    (mediaItems : slice pointer) :
  Structure filepaths s -> returned s = Some mediaItems ->
  aggregateQueue_closed s = true /\ aggregateQueue s = [] /\ closer s = CClosed.
Proof.
  intros Hs Hret. unfold returned in Hret. pose proof (st_main _ _ Hs) as Hmain.
  destruct (main s); try discriminate. destruct Hmain as (_ & Hc & Hq & _).
  rewrite (st_closed _ _ Hs), Hc. now repeat split.
Qed.

(** X6.  At every moment of every run, the paths still queued are the end
    of the input, in its order, and the paths before them are, up to
    order, those of the finished calls and of the calls in flight: no path
    is skipped, taken twice or taken out of turn. *)
Theorem UploadFiles_takes_paths_in_order (filepaths : list string)
    (acts : list Action) (s : State) :
  run acts (start filepaths) = Some s ->
  exists taken,
    filepaths = taken ++ uploadQueue s /\
    taken ≡ₚ map call_filepath (calls s) ++ in_flight s.
Proof.
  intros Hrun. destruct (Dequeued_run _ _ _ Hrun) as (taken & Hq & Hp).
  exists taken. now split.
Qed.

Lemma UploadFiles_takes_paths_in_order_witness :
  exists taken,
    SampleRun.paths = taken ++ uploadQueue SampleRun.started /\
    taken ≡ₚ map call_filepath (calls SampleRun.started)
             ++ in_flight SampleRun.started.
Proof.
  apply (UploadFiles_takes_paths_in_order SampleRun.paths
           SampleRun.uploads_started SampleRun.started).
  vm_compute. reflexivity.
Defined.

(** X7.  When [UploadFiles] has returned, the log is the line [Queued n
    file(s)] followed, in some order, by what the calls of [UploadFile]
    printed and by one report [Error while uploading file], with the path
    and the error, for each call that failed, and by nothing else. *)
Theorem UploadFiles_log (filepaths : list string) (acts : list Action)
    (s : State) (mediaItems : slice pointer) :
  run acts (start filepaths) = Some s ->
  returned s = Some mediaItems ->
  exists rest,
    log s = ("Queued " +:+ Fmt.d (Z.of_nat (length filepaths)) +:+ " file(s)")
            :: rest /\
    rest ≡ₚ flat_map call_lines (calls s) /\
    (forall c e, c ∈ calls s -> call_err c = Some e ->
       ("Error while uploading file " +:+ call_filepath c +:+ ": " +:+ e) ∈ rest).
Proof.
  intros Hrun Hret. destruct (Logged_run _ _ _ Hrun) as (rest & Hlog & Hp).
  destruct (Invariant_run _ _ _ Hrun) as (Hs & _ & _).
  destruct (returned_closed _ _ _ Hs Hret) as (Hclosed & _ & _).
  destruct (closed_workers _ _ Hs Hclosed) as (Hws & _ & _).
  rewrite Hws in Hp. simpl in Hp. rewrite app_nil_r in Hp.
  exists rest. repeat split; try assumption.
  intros c e Hin He. rewrite Hp. apply list_elem_of_In, List.in_flat_map.
  exists c. split; [now apply list_elem_of_In|].
  unfold call_lines. rewrite He. apply List.in_or_app. right. now left.
Qed.

Lemma UploadFiles_log_witness :
  exists rest,
    log SampleRun.final = "Queued 3 file(s)" :: rest /\
    rest ≡ₚ flat_map call_lines (calls SampleRun.final).
Proof.
  assert (Hrun : run SampleRun.schedule (start SampleRun.paths)
                 = Some SampleRun.final) by (vm_compute; reflexivity).
  destruct (UploadFiles_log SampleRun.paths SampleRun.schedule SampleRun.final
              _ Hrun eq_refl) as (rest & Hlog & Hp & _).
  exists rest. split; [exact Hlog | exact Hp].
Defined.

(** X8.  When [UploadFiles] has returned, no goroutine is left that could
    take a step: the three workers have exited, both channels are empty,
    the channel of the results is closed and the counter of the WaitGroup
    is zero. *)
Theorem UploadFiles_leaves_nothing_running (filepaths : list string)
    (acts : list Action) (s : State) (mediaItems : slice pointer) :
  run acts (start filepaths) = Some s ->
  returned s = Some mediaItems ->
  (forall a, step a s = None) /\
  workers s = [WExited; WExited; WExited] /\
  uploadQueue s = [] /\ aggregateQueue s = [] /\
  aggregateQueue_closed s = true /\ workerGroup s = 0.
Proof.
  intros Hrun Hret. destruct (Invariant_run _ _ _ Hrun) as (Hs & _ & _).
  destruct (returned_closed _ _ _ Hs Hret) as (Hclosed & Hq & Hc).
  destruct (closed_workers _ _ Hs Hclosed) as (Hws & Hu & Hg).
  repeat split; try assumption.
  intros [|i w|]; simpl.
  - unfold UploadFiles_step. unfold returned in Hret.
    now destruct (main s).
  - unfold uploadWorker_step. rewrite Hws.
    now destruct i as [|[|[|i]]].
  - unfold closer_step. now rewrite Hc.
Qed.

Lemma UploadFiles_leaves_nothing_running_witness :
  step (RunWorker 0 Sample.world) SampleRun.final = None /\
  workers SampleRun.final = [WExited; WExited; WExited].
Proof.
  assert (Hrun : run SampleRun.schedule (start SampleRun.paths)
                 = Some SampleRun.final) by (vm_compute; reflexivity).
  destruct (UploadFiles_leaves_nothing_running SampleRun.paths
              SampleRun.schedule SampleRun.final _ Hrun eq_refl)
    as (Hstuck & Hws & _).
  exact (conj (Hstuck (RunWorker 0 Sample.world)) Hws).
Defined.

(** X9.  At every moment of every run, a worker that has not exited can
    take its next step at once, whatever the world answers: it never waits
    for room in the channel of the results, never sends on a closed
    channel and never makes the counter of the WaitGroup negative; a
    worker holding an item puts it at the end of the channel. *)
Theorem uploadWorker_never_waits (filepaths : list string) (acts : list Action)
    (s : State) (i : nat) (wk : Worker) (w : World) :
  run acts (start filepaths) = Some s ->
  workers s !! i = Some wk ->
  wk <> WExited ->
  exists s',
    step (RunWorker i w) s = Some s' /\
    (WPanicked ∉ workers s') /\
    (forall filepath mediaItem,
        wk = WReturned filepath mediaItem None ->
        aggregateQueue s' = aggregateQueue s ++ [mediaItem]).
Proof.
  intros Hrun Hw Hne. pose proof (Invariant_run _ _ _ Hrun) as Hinv.
  pose proof (room_to_send _ _ Hinv) as Hroom.
  assert (Hsafe : forall s', step (RunWorker i w) s = Some s' ->
                             WPanicked ∉ workers s').
  { intros s' Hstep. apply step_Step in Hstep.
    destruct (Invariant_step _ _ _ Hinv Hstep) as (Hs' & _).
    apply (st_safe _ _ Hs'). }
  destruct Hinv as (Hs & _ & _).
  assert (Hstep : exists s',
             step (RunWorker i w) s = Some s' /\
             forall filepath mediaItem,
               wk = WReturned filepath mediaItem None ->
               aggregateQueue s' = aggregateQueue s ++ [mediaItem]).
  { simpl. unfold uploadWorker_step. rewrite Hw.
    destruct wk as [|filepath|filepath mediaItem [e|]| |].
    - pose proof (done_is_safe _ _ _ Hs Hw).
      destruct (uploadQueue s); [|eexists; split; [reflexivity | discriminate]].
      destruct (Z.ltb_spec 0 (workerGroup s)); [|lia].
      eexists; split; [reflexivity | discriminate].
    - destruct (UploadFile w filepath) as [evs [item err]].
      eexists; split; [reflexivity | discriminate].
    - eexists; split; [reflexivity | discriminate].
    - rewrite (send_is_safe _ _ _ _ _ Hs Hw).
      destruct (worker_split _ _ _ WRange Hw) as (l1 & l2 & E & _).
      rewrite E, flat_map_app, length_app in Hroom. simpl in Hroom.
      destruct (Nat.ltb_spec (length (aggregateQueue s)) (aggregateQueue_cap s));
        [|lia].
      eexists; split; [reflexivity|]. now intros ? ? [= _ ->].
    - contradiction.
    - exfalso. apply (st_safe _ _ Hs). eapply list_elem_of_lookup_2, Hw. }
  destruct Hstep as (s' & Hstep & Hsend). exists s'. repeat split.
  - assumption.
  - now apply Hsafe.
  - assumption.
Qed.

Lemma uploadWorker_never_waits_witness :
  exists s',
    step (RunWorker 1 Sample.offline) SampleRun.started = Some s' /\
    (WPanicked ∉ workers s').
Proof.
  destruct (uploadWorker_never_waits SampleRun.paths SampleRun.uploads_started
              SampleRun.started 1 (WUploading "bad.jpg") Sample.offline)
    as (s' & Hstep & Hsafe & _).
  - vm_compute. reflexivity.
  - reflexivity.
  - discriminate.
  - exists s'. split; [exact Hstep | exact Hsafe].
Defined.

(** X10.  At every moment of every run at which the channel of the results
    is closed, the three workers have exited, every path has been the
    argument of a finished call, and the pointer of every call that
    succeeded is in the channel or already collected: closing never cuts
    off a result. *)
Theorem UploadFiles_closes_after_the_workers (filepaths : list string)
    (acts : list Action) (s : State) :
  run acts (start filepaths) = Some s ->
  aggregateQueue_closed s = true ->
  workers s = [WExited; WExited; WExited] /\
  map call_filepath (calls s) ≡ₚ filepaths /\
  map call_mediaItem (List.filter call_ok (calls s))
  ≡ₚ aggregateQueue s ++ collected (main s).
Proof.
  intros Hrun Hclosed. destruct (Invariant_run _ _ _ Hrun) as (Hs & Hp & Hi).
  destruct (closed_workers _ _ Hs Hclosed) as (Hws & Hu & _).
  pose proof (it_where _ Hi) as Hwhere.
  unfold Paths, in_flight in Hp. rewrite Hws, Hu in Hp. simpl in Hp.
  rewrite app_nil_r in Hp. rewrite Hws in Hwhere. simpl in Hwhere.
  repeat split; [assumption | now symmetry | assumption].
Qed.

Lemma UploadFiles_closes_after_the_workers_witness :
  workers SampleRun.final = [WExited; WExited; WExited] /\
  map call_filepath (calls SampleRun.final) ≡ₚ SampleRun.paths.
Proof.
  assert (Hrun : run SampleRun.schedule (start SampleRun.paths)
                 = Some SampleRun.final) by (vm_compute; reflexivity).
  destruct (UploadFiles_closes_after_the_workers SampleRun.paths
              SampleRun.schedule SampleRun.final Hrun eq_refl)
    as (Hws & Hp & _).
  exact (conj Hws Hp).
Defined.

(** ** From [UploadFiles] to [Append] *)

Lemma load_Forall2 (P : pointer -> NewMediaItem -> Prop) (h : list NewMediaItem)
    (ptrs : list pointer) :
  (forall ptr, ptr ∈ ptrs ->
     exists a item, ptr = Some a /\ h !! a = Some item /\ P ptr item) ->
  exists items, load h ptrs = Some items /\ Forall2 P ptrs items.
Proof.
  induction ptrs as [|ptr rest IH]; intros H.
  - exists []. split; [reflexivity | constructor].
  - destruct (H ptr) as (a & item & -> & Ha & HP); [apply list_elem_of_here|].
    destruct IH as (items & Hload & Hall).
    { intros q Hq. apply H. now apply list_elem_of_further. }
    exists (item :: items). simpl. rewrite Ha, Hload.
    split; [reflexivity | now constructor].
Qed.

(** At the return every pointer of the result leads to the item that one
    finished call, of one of the input paths, built. *)
Lemma loaded_at_return (filepaths : list string) (acts : list Action)
    (s : State) (mediaItems : slice pointer) :
  run acts (start filepaths) = Some s ->
  returned s = Some mediaItems ->
  exists items,
    load (heap s) (elems mediaItems) = Some items /\
    Forall2 (fun ptr item =>
               exists c,
                 c ∈ calls s /\ call_filepath c ∈ filepaths /\ built_by c ptr item)
      (elems mediaItems) items.
Proof.
  intros Hrun Hret. pose proof (Invariant_run _ _ _ Hrun) as Hinv.
  destruct (at_return _ _ _ Hinv Hret) as (_ & Hpaths & Hitems).
  destruct Hinv as (_ & _ & Hi).
  apply load_Forall2. intros ptr Hptr. rewrite Hitems in Hptr.
  apply list_elem_of_In, List.in_map_iff in Hptr as (c & <- & Hc).
  apply List.filter_In in Hc as [Hc Hok]. apply list_elem_of_In in Hc.
  destruct (call_ok_item _ _ Hi Hc Hok) as (a & item & Ha & Hh & Hitem).
  exists a, item. repeat split; try assumption.
  exists c. split; [assumption|]. split.
  - rewrite <- Hpaths. apply list_elem_of_In, List.in_map.
    now apply list_elem_of_In.
  - split; [reflexivity|]. split; [assumption|]. unfold call_item in Hitem.
    destruct (UploadFile_outcome (call_world c) (call_filepath c))
      as [(k & m & _ & E)|(b & Hb & E)];
      rewrite E in Hitem; simpl in Hitem; [discriminate|].
    injection Hitem as <-. exists b. now repeat split.
Qed.

(** X11.  When [UploadFiles] has returned, every pointer of the result can
    be dereferenced, none is nil or dangling, and the item behind it is
    the one that a finished call of [UploadFile] returned with this
    pointer, for one of the input paths: the world that answered this call
    accepted the upload, the token of the item is the body that it
    answered, and the description is the base name of the path. *)
Theorem UploadFiles_result_loads (filepaths : list string) (acts : list Action)
    (s : State) (mediaItems : slice pointer) :
  run acts (start filepaths) = Some s ->
  returned s = Some mediaItems ->
  exists items,
    load (heap s) (elems mediaItems) = Some items /\
    Forall2 (fun ptr item =>
               exists c body,
                 c ∈ calls s /\
                 call_filepath c ∈ filepaths /\
                 call_mediaItem c = ptr /\
                 fst (snd (UploadFile (call_world c) (call_filepath c))) = Some item /\
                 UploadAccepted (call_world c) (call_filepath c) body /\
                 token item = Some body /\
                 Description item = path.Base (call_filepath c))
      (elems mediaItems) items.
Proof.
  intros Hrun Hret.
  destruct (loaded_at_return _ _ _ _ Hrun Hret) as (items & Hload & Hall).
  exists items. split; [assumption|].
  eapply Forall2_impl; [exact Hall|].
  intros ptr item (c & Hc & Hf & Hptr & Hitem & body & Hb & Ht & Hd).
  exists c, body. now repeat split.
Qed.

Lemma UploadFiles_result_loads_witness :
  exists items,
    load (heap SampleRun.final) [Some 0%nat; Some 1%nat] = Some items /\
    length items = 2%nat.
Proof.
  assert (Hrun : run SampleRun.schedule (start SampleRun.paths)
                 = Some SampleRun.final) by (vm_compute; reflexivity).
  destruct (UploadFiles_result_loads SampleRun.paths SampleRun.schedule
              SampleRun.final (mk_slice [Some 0%nat; Some 1%nat]) Hrun eq_refl)
    as (items & Hload & Hall).
  exists items. split; [exact Hload|].
  exact (eq_sym (Forall2_length _ _ _ Hall)).
Defined.

(** X12.  When the items that [UploadFiles] returned are handed to
    [Append] and the batch call answers, every line that [Append] prints
    stands for a result with a status code other than zero, and is either
    the line without a name or a line [Skipped] naming the base name of
    one of the input paths. *)
Theorem Append_after_UploadFiles (filepaths : list string) (acts : list Action)
    (s : State) (mediaItems : slice pointer) (items : list NewMediaItem)
    (p : World) (album : option Album) (batch : BatchCreateMediaItemsResponse) :
  run acts (start filepaths) = Some s ->
  returned s = Some mediaItems ->
  load (heap s) (elems mediaItems) = Some items ->
  MediaItems_BatchCreate_Do p (Append_request album (map Some items)) = inl batch ->
  forall line, line ∈ printed (fst (Append p album (map Some items))) ->
    exists result status,
      Some result ∈ NewMediaItemResults batch /\
      Result_Status result = Some status /\
      Code status <> 0 /\
      (line = "Error while adding files: " +:+ Message status
              +:+ " (" +:+ Fmt.d (Code status) +:+ ")" \/
       exists filepath,
         filepath ∈ filepaths /\
         line = "Skipped " +:+ path.Base filepath +:+ ": " +:+ Message status
                +:+ " (" +:+ Fmt.d (Code status) +:+ ")").
Proof.
  intros Hrun Hret Hload Hdo line Hline.
  destruct (loaded_at_return _ _ _ _ Hrun Hret) as (items' & Hload' & Hbuilt).
  rewrite Hload in Hload'. injection Hload' as <-.
  unfold Append in Hline. rewrite Hdo in Hline.
  destruct (reconcile_all_outcome (map Some items) (NewMediaItemResults batch))
    as (done & rest & lines & E & Hdone & Hp & Hall & _).
  destruct (reconcile_all (map Some items) (NewMediaItemResults batch))
    as [evs end_].
  simpl in *. change (printed (EvBatchCreate ?r :: evs)) with (printed evs) in Hline.
  rewrite Hp in Hline.
  apply list_elem_of_In, List.in_concat in Hline as (l & Hl & Hin).
  apply list_elem_of_In in Hl.
  destruct (Forall2_elem_r _ _ _ _ Hall Hl) as (r & Hr & Hrec).
  assert (Hres : r ∈ NewMediaItemResults batch).
  { rewrite E. apply elem_of_app. now left. }
  inversion Hrec as [? st Hst Hzero|? st b m a Hst Hcode El Ht _|? st Hst Hcode _|? ? Hnone];
    subst.
  - destruct Hin.
  - exists result, st. repeat split; try assumption. right.
    destruct Hin as [<- | []].
    assert (Hm : m ∈ items).
    { assert (Hsome : Some m ∈ map Some items).
      { rewrite El. apply elem_of_app. right. apply list_elem_of_here. }
      apply list_elem_of_In, List.in_map_iff in Hsome as (m' & [= ->] & Hm').
      now apply list_elem_of_In. }
    destruct (Forall2_elem_r _ _ _ _ Hbuilt Hm)
      as (ptr & _ & c & _ & Hf & _ & _ & body & _ & _ & Hd).
    exists (call_filepath c). split; [assumption|]. now rewrite Hd.
  - exists result, st. repeat split; try assumption. left.
    now destruct Hin as [<- | []].
  - exfalso. unfold statuses_present in Hdone. rewrite Forall_forall in Hdone.
    destruct (Hdone r Hr) as [st Hst]. congruence.
Qed.

Lemma Append_after_UploadFiles_witness :
  exists result status,
    Some result ∈ [Sample.result 6 "ALREADY_EXISTS" "token-696"] /\
    Result_Status result = Some status /\
    Code status <> 0 /\
    ("Skipped dup.jpg: ALREADY_EXISTS (6)"
     = "Error while adding files: " +:+ Message status
       +:+ " (" +:+ Fmt.d (Code status) +:+ ")" \/
     exists filepath,
       filepath ∈ SampleDup.paths /\
       "Skipped dup.jpg: ALREADY_EXISTS (6)"
       = "Skipped " +:+ path.Base filepath +:+ ": " +:+ Message status
         +:+ " (" +:+ Fmt.d (Code status) +:+ ")").
Proof.
  assert (Hrun : run SampleDup.schedule (start SampleDup.paths)
                 = Some SampleDup.final) by (vm_compute; reflexivity).
  apply (Append_after_UploadFiles SampleDup.paths SampleDup.schedule
           SampleDup.final (mk_slice [Some 0%nat])
           [{| Description := "dup.jpg";
               NewMediaItem_SimpleMediaItem := Some {| UploadToken := "token-696" |} |}]
           Sample.world None
           {| NewMediaItemResults := [Sample.result 6 "ALREADY_EXISTS" "token-696"] |}
           Hrun eq_refl eq_refl eq_refl).
  vm_compute. apply list_elem_of_here.
Defined.

(** ** [UploadFiles]: items and reports add up *)

Lemma filter_length_perm {A : Type} (f : A -> bool) (l l' : list A) :
  l ≡ₚ l' -> length (List.filter f l) = length (List.filter f l').
Proof.
  induction 1 as [|x l l' _ IH|x y l|l l' l'' _ IH _ IH']; simpl.
  - reflexivity.
  - destruct (f x); simpl; now rewrite IH.
  - now destruct (f x), (f y).
  - now rewrite IH.
Qed.

Lemma report_is_report (filepath : string) (e : error) :
  is_report (report filepath e) = true.
Proof. reflexivity. Qed.

Lemma call_lines_reports (c : Call) :
  length (List.filter is_report (call_lines c))
  = if call_ok c then 0%nat else 1%nat.
Proof.
  unfold call_lines, call_ok. rewrite List.filter_app, length_app.
  assert (Hnone : List.filter is_report
                    (printed (fst (UploadFile (call_world c) (call_filepath c))))
                  = []).
  { rewrite UploadFile_trace.
    destruct (os_Open _ _); [|reflexivity].
    destruct (http_NewRequest_check _ _ _); [reflexivity|].
    now destruct (client_Do _ _). }
  rewrite Hnone. now destruct (call_err c).
Qed.

Lemma reports_of_calls (cs : list Call) :
  (length (List.filter call_ok cs)
   + length (List.filter is_report (flat_map call_lines cs)))%nat
  = length cs.
Proof.
  induction cs as [|c cs IH]; [reflexivity|].
  simpl. rewrite List.filter_app, length_app, call_lines_reports.
  destruct (call_ok c); simpl; lia.
Qed.

(** X13.  When [UploadFiles] has returned, the returned items and the
    reports of failed uploads in the log are together as many as the input
    paths: every file is accounted for, by an item or by a report. *)
Theorem UploadFiles_accounts_for_every_file (filepaths : list string)
    (acts : list Action) (s : State) (mediaItems : slice pointer) :
  run acts (start filepaths) = Some s ->
  returned s = Some mediaItems ->
  (length (elems mediaItems) + length (List.filter is_report (log s)))%nat
  = length filepaths.
Proof.
  intros Hrun Hret. pose proof (Invariant_run _ _ _ Hrun) as Hinv.
  destruct (at_return _ _ _ Hinv Hret) as (_ & Hpaths & Hitems).
  destruct (Logged_run _ _ _ Hrun) as (rest & Hlog & Hp).
  destruct Hinv as (Hs & _ & _).
  destruct (returned_closed _ _ _ Hs Hret) as (Hclosed & _ & _).
  destruct (closed_workers _ _ Hs Hclosed) as (Hws & _ & _).
  rewrite Hws in Hp. simpl in Hp. rewrite app_nil_r in Hp.
  rewrite Hlog. change (List.filter is_report (?x :: rest))
    with (List.filter is_report rest).
  rewrite (filter_length_perm _ _ _ Hp), (Permutation_length Hitems), length_map.
  rewrite reports_of_calls, <- (Permutation_length Hpaths). symmetry. apply length_map.
Qed.

Lemma UploadFiles_accounts_for_every_file_witness :
  (length [Some 0%nat; Some 1%nat]
   + length (List.filter is_report (log SampleRun.final)))%nat = 3%nat.
Proof.
  assert (Hrun : run SampleRun.schedule (start SampleRun.paths)
                 = Some SampleRun.final) by (vm_compute; reflexivity).
  exact (UploadFiles_accounts_for_every_file SampleRun.paths SampleRun.schedule
           SampleRun.final (mk_slice [Some 0%nat; Some 1%nat]) Hrun eq_refl).
Defined.

(** ** [UploadFiles]: what is done stays *)

Lemma Step_grows (s s' : State) :
  Step s s' ->
  (exists new, heap s' = heap s ++ new) /\
  (exists new, calls s' = calls s ++ new) /\
  (exists new, log s' = log s ++ new).
Proof.
  intros Hstep.
  destruct Hstep; simpl; repeat split;
    solve [now exists [] ; rewrite app_nil_r | now eexists].
Qed.

Lemma run_grows (acts : list Action) (s s' : State) :
  run acts s = Some s' ->
  (exists new, heap s' = heap s ++ new) /\
  (exists new, calls s' = calls s ++ new) /\
  (exists new, log s' = log s ++ new).
Proof.
  revert s. induction acts as [|a acts IH]; intros s; simpl.
  - intros [= <-]. repeat split; exists []; now rewrite app_nil_r.
  - destruct (step a s) as [s1|] eqn:Ha; [|discriminate]. intros Hrun.
    apply step_Step, Step_grows in Ha as ((h1 & Hh1) & (c1 & Hc1) & (l1 & Hl1)).
    destruct (IH _ Hrun) as ((h2 & Hh2) & (c2 & Hc2) & (l2 & Hl2)).
    repeat split.
    + exists (h1 ++ h2). now rewrite Hh2, Hh1, app_assoc.
    + exists (c1 ++ c2). now rewrite Hc2, Hc1, app_assoc.
    + exists (l1 ++ l2). now rewrite Hl2, Hl1, app_assoc.
Qed.

(** X14.  Whatever steps are taken from whatever state, an item once built
    is never changed or moved: an address keeps holding the same item; and
    nothing is ever taken back from the log or from the heap, which only
    grow at their ends. *)
Theorem UploadFiles_never_changes_an_item (acts : list Action) (s s' : State) :
  run acts s = Some s' ->
  (forall a item, heap s !! a = Some item -> heap s' !! a = Some item) /\
  (exists new, heap s' = heap s ++ new) /\
  (exists new, log s' = log s ++ new).
Proof.
  intros Hrun. destruct (run_grows _ _ _ Hrun) as ((h & Hh) & _ & Hl).
  repeat split; [|now exists h | assumption].
  intros a item Ha. rewrite Hh. now apply lookup_app_l_Some.
Qed.

Lemma UploadFiles_never_changes_an_item_witness :
  exists new, log SampleRun.final = log SampleRun.started ++ new.
Proof.
  assert (Hrun : run [SampleRun.worker 2; SampleRun.worker 0; SampleRun.worker 1;
                      SampleRun.worker 2; SampleRun.worker 1; SampleRun.worker 0;
                      SampleRun.worker 1; SampleRun.worker 0; SampleRun.worker 2;
                      RunCloser; RunMain; RunMain; RunMain]
                   SampleRun.started
                 = Some SampleRun.final) by (vm_compute; reflexivity).
  exact (proj2 (proj2 (UploadFiles_never_changes_an_item _ _ _ Hrun))).
Defined.

(** ** [UploadFiles]: three uploads at a time do happen *)

(** X15.  With three paths or more, a moment is reached at which three
    calls of [UploadFile] are in flight, for the first three paths: the
    bound of three is attained. *)
Theorem UploadFiles_three_in_flight_reached (filepaths : list string) :
  (3 <= length filepaths)%nat ->
  exists acts s,
    run acts (start filepaths) = Some s /\
    in_flight s = take 3 filepaths.
Proof.
  intros Hlen.
  destruct filepaths as [|f1 [|f2 [|f3 rest]]]; simpl in Hlen; try lia.
  exists SampleRun.uploads_started.
  exists {| uploadQueue := rest;
            aggregateQueue := [];
            aggregateQueue_cap := length (f1 :: f2 :: f3 :: rest);
            aggregateQueue_closed := false;
            workerGroup := 3;
            workers := [WUploading f1; WUploading f2; WUploading f3];
            closer := CWaiting;
            main := MCollect (mk_slice []);
            heap := [];
            log := log (start (f1 :: f2 :: f3 :: rest));
            calls := [] |}.
  split; [|reflexivity]. vm_compute. reflexivity.
Qed.

Lemma UploadFiles_three_in_flight_reached_witness :
  exists acts s,
    run acts (start SampleRun.paths) = Some s /\
    in_flight s = ["ok1.jpg"; "bad.jpg"; "ok2.jpg"].
Proof.
  apply (UploadFiles_three_in_flight_reached SampleRun.paths).
  simpl. lia.
Defined.
